(** * Status pass of the AutoMech subtask monitor

    A shallow embedding of [src/automech/cli/_subtasks_status.py]: the status
    aggregator [parse_subtask_status], the table renderer [print_task_row] /
    [print_long_row_guide] and the driver [main], together with the
    properties that the specification states about them.

    Python code that reads the file system and prints is embedded in a small
    monad that threads the persisted world, collects the printed lines and
    propagates exceptions. *)

From Stdlib Require Import QArith Ascii Floats Uint63.
From stdpp Require Import base decidable countable gmap strings list.

Local Open Scope string_scope.
Local Open Scope list_scope.

(** ** Data model *)

(** Modelled from the spec: the enum [Status] of [_check_log.py], which is
    not part of the sources at hand.  The spec gives the closed set
    TBD, RUNNING, OK, WARNING, ERROR, OK_1E, OK_2E. *)
Inductive Status : Set :=
| TBD | RUNNING | OK | WARNING | ERROR | OK_1E | OK_2E.

#[global] Instance Status_eq_dec : EqDecision Status.
Proof. solve_decision. Defined.

Definition Status_code (s : Status) : nat :=
  match s with
  | TBD => 0 | RUNNING => 1 | OK => 2 | WARNING => 3
  | ERROR => 4 | OK_1E => 5 | OK_2E => 6
  end.

Definition Status_of_code (n : nat) : Status :=
  match n with
  | 0 => TBD | 1 => RUNNING | 2 => OK | 3 => WARNING
  | 4 => ERROR | 5 => OK_1E | _ => OK_2E
  end.

#[global] Instance Status_countable : Countable Status.
Proof.
  refine (inj_countable' Status_code Status_of_code _).
  intros s. destruct s; reflexivity.
Defined.

(** A cell of the pandas data frame read from the matrix CSV: a blank field
    is read as the float NaN, anything else is kept as a string. *)
Inductive Cell : Set :=
| NaN
| Str (s : string).

#[global] Instance Cell_eq_dec : EqDecision Cell.
Proof. solve_decision. Defined.

(** A row of the data frame, column name to cell, in column order. *)
Definition Row : Set := list (string * Cell).

Module Task.
(** Modelled from the spec: the class [Task] of [_subtasks_setup.py] (not
    part of the sources at hand): a name and an ordered list of subtask
    partition keys. *)
Record t : Set := mk { name : string; subtask_keys : list string }.
End Task.

(** The manifest, as [main] uses it: [info_dct[InfoKey.group_ids]] and
    [info_dct[InfoKey.work_path]]. *)
Record Info : Set := mkInfo { group_ids : list string; work_path : string }.

(** The persisted world that a status pass can observe. *)
Record World : Type := mkWorld {
  (** the paths for which [Path.exists()] holds *)
  fs_paths : gset string;
  (** YAML manifests, by file path *)
  fs_info : gmap string Info;
  (** matrix CSV files as [pandas.read_csv] returns them, by file path *)
  fs_csv : gmap string (list Row);
  (** task catalogs as [read_task_list] returns them, by file path *)
  fs_tasks : gmap string (list Task.t);
  (** directories, by the path string handed to [Path]: the paths of the
      entries that match [out*.log], in the order of the scan *)
  fs_logs : gmap string (list string);
  (** the external log parser [parse_log_status] on a log file *)
  fs_status : string -> Status
}.

(** ** Exceptions and the monad of the status pass *)

(** The three [assert] statements of the module. *)
Inductive Assertion : Set :=
| PathExists (path : string)
| RowMatchesTask (row : Row) (task_name : string)
| OkWarningOnly.

Inductive Exn : Set :=
| AssertionError (a : Assertion)
| TypeError
| IndexError
| KeyError (key : string)
| ValueError
| FileNotFoundError (path : string)
| StopIteration.

Inductive Res (A : Type) : Type :=
| Ret (a : A)
| Raise (e : Exn).
Arguments Ret {A} a.
Arguments Raise {A} e.

Record Outcome (A : Type) : Type := mkOutcome {
  res : Res A;          (* value returned or exception raised *)
  wld : World;          (* the world afterwards *)
  out : list string     (* lines printed, in order *)
}.
Arguments mkOutcome {A} res wld out.
Arguments res {A} o.
Arguments wld {A} o.
Arguments out {A} o.

Definition M (A : Type) : Type := World -> Outcome A.

Definition ret {A} (a : A) : M A := fun w => mkOutcome (Ret a) w [].

Definition raise {A} (e : Exn) : M A := fun w => mkOutcome (Raise e) w [].

Definition bind {A B} (m : M A) (k : A -> M B) : M B := fun w =>
  let o := m w in
  match res o with
  | Ret a => let o' := k a (wld o) in
             mkOutcome (res o') (wld o') (out o ++ out o')
  | Raise e => mkOutcome (Raise e) (wld o) (out o)
  end.

Declare Scope py_scope.
Delimit Scope py_scope with py.
Notation "x <- m ;; k" := (bind m (fun x => k))
  (at level 100, m at next level, right associativity) : py_scope.
Notation "m ;;; k" := (bind m (fun _ => k))
  (at level 100, right associativity) : py_scope.
Local Open Scope py_scope.

(** [print(line)] *)
Definition print (line : string) : M unit := fun w => mkOutcome (Ret tt) w [line].

(** Reading from the world. *)
Definition reads {A} (f : World -> A) : M A := fun w => mkOutcome (Ret (f w)) w [].

(** A value or an exception computed without effects. *)
Definition lift {A} (r : Res A) : M A := fun w => mkOutcome r w [].

(** [assert cond, ...] *)
Definition assert (cond : bool) (a : Assertion) : M unit :=
  if cond then ret tt else raise (AssertionError a).

(** [for x in xs: acc = body(acc, x)] *)
Fixpoint foldM {A B} (body : B -> A -> M B) (xs : list A) (acc : B) : M B :=
  match xs with
  | [] => ret acc
  | x :: xs' => acc' <- body acc x ;; foldM body xs' acc'
  end.

(** [list(map(f, xs))] for an [f] with effects *)
Fixpoint mapM {A B} (f : A -> M B) (xs : list A) : M (list B) :=
  match xs with
  | [] => ret []
  | x :: xs' => y <- f x ;; ys <- mapM f xs' ;; ret (y :: ys)
  end.

(** ** Python dictionaries, sets and strings *)

(** [d[k] = v] on an insertion-ordered dictionary. *)
Fixpoint dict_set {V} (d : list (string * V)) (k : string) (v : V) : list (string * V) :=
  match d with
  | [] => [(k, v)]
  | (k', v') :: d' => if decide (k' = k) then (k', v) :: d' else (k', v') :: dict_set d' k v
  end.

(** [dict(kvs)] *)
Definition dict_of {V} (kvs : list (string * V)) : list (string * V) :=
  fold_left (fun d kv => dict_set d kv.1 kv.2) kvs [].

(** [d.get(k)] ([None] when absent) *)
Fixpoint dict_get {V} (d : list (string * V)) (k : string) : option V :=
  match d with
  | [] => None
  | (k', v) :: d' => if decide (k' = k) then Some v else dict_get d' k
  end.

(** [s * n] for a string [s] *)
Fixpoint str_repeat (s : string) (n : nat) : string :=
  match n with
  | 0 => ""
  | S n' => s +:+ str_repeat s n'
  end.

Definition spaces (n : nat) : string := str_repeat " " n.

(** [f"{s:>{w}}"], [f"{s:<{w}}"] and [f"{s:^{w}}"] *)
Definition rjust (s : string) (w : nat) : string := spaces (w - String.length s) +:+ s.
Definition ljust (s : string) (w : nat) : string := s +:+ spaces (w - String.length s).
Definition center (s : string) (w : nat) : string :=
  let pad := w - String.length s in
  spaces (pad / 2) +:+ s +:+ spaces (pad - pad / 2).

(** [sep.join(xs)] *)
Fixpoint join (sep : string) (xs : list string) : string :=
  match xs with
  | [] => ""
  | [x] => x
  | x :: xs' => x +:+ sep +:+ join sep xs'
  end.

(** [max(xs)] of natural numbers, [ValueError] on an empty sequence. *)
Definition py_max (xs : list nat) : M nat :=
  match xs with
  | [] => raise ValueError
  | x :: xs' => ret (fold_left Nat.max xs' x)
  end.

(** [sys.maxsize], the largest [Py_ssize_t] of a 64-bit CPython: the
    largest stop value that [itertools.islice] accepts. *)
Definition sys_maxsize : Z := 9223372036854775807.

(** [more_itertools.unique_everseen]: first occurrences, in order. *)
Fixpoint unique_everseen_from (seen : list string) (xs : list string) : list string :=
  match xs with
  | [] => []
  | x :: xs' =>
      if decide (x ∈ seen) then unique_everseen_from seen xs'
      else x :: unique_everseen_from (x :: seen) xs'
  end.

Definition unique_everseen (xs : list string) : list string := unique_everseen_from [] xs.

(** [more_itertools.chunked(vals, n)] for [n >= 0]: [take(n, it)] is called
    until it returns the empty list.  The fuel bounds the number of calls;
    [length vals] calls are enough, see [chunked_go_concat]. *)
Fixpoint chunked_go {A} (fuel : nat) (n : nat) (vals : list A) : list (list A) :=
  match fuel with
  | 0 => []
  | S fuel' =>
      match take n vals with
      | [] => []
      | c => c :: chunked_go fuel' n (drop n vals)
      end
  end.

Definition chunked {A} (vals : list A) (n : nat) : list (list A) :=
  chunked_go (length vals) n vals.

(** ** The status pass *)

(** A record of the end-of-report listing:
    [(task.name, skey, log path, Status)]. *)
Definition LogRecord : Set := (string * string * string * Status)%type.

(** [str(p)] for the entries [p] of [Path(path).glob("out*.log")]; a
    directory that does not exist has no entries. *)
Definition glob_out_logs (path : string) : M (list string) :=
  reads (fun w => default [] (fs_logs w !! path)).

(** The external collaborator [parse_log_status]. *)
Definition parse_log_status (log_path : string) : M Status :=
  reads (fun w => fs_status w log_path).

Definition log_paths_with_statuses (path : string) (exclude_stats : list Status)
  : M (list (string * Status)) :=
  log_paths <- glob_out_logs path ;;
  log_stats <- mapM parse_log_status log_paths ;;
  let log_dct := dict_of (zip log_paths log_stats) in
  ret (filter (fun kv => kv.2 ∉ exclude_stats) log_dct).

(** [error_count / len(log_stats) < small_thresh].  The quotient of the two
    integers is taken exactly; the double-precision comparison of the source
    agrees with it wherever its result is used, that is for one or two
    errors (see [float_guard_agrees] below). *)
Definition error_frac (error_count nlogs : nat) : Q :=
  Z.of_nat error_count # Pos.of_nat nlogs.

(** The comparison as the source computes it: the quotient of the two
    integers rounded to a double, compared with the double nearest to 0.2. *)
Definition float_guard (error_count nlogs : nat) : bool :=
  PrimFloat.ltb
    (PrimFloat.div (PrimFloat.of_uint63 (Uint63.of_Z (Z.of_nat error_count)))
                   (PrimFloat.of_uint63 (Uint63.of_Z (Z.of_nat nlogs))))
    0x1.999999999999ap-3%float.

Definition Qltb (x y : Q) : bool :=
  match (x ?= y)%Q with Lt => true | _ => false end.

Definition small_thresh_default : Q := 0.2%Q.

(** Lines 103 to 129 of [parse_subtask_status]: the rule table on the list
    [log_stats] of the statuses of the log files. *)
Definition status_of_log_stats (log_stats : list Status) (small_thresh : Q) : Res Status :=
  match log_stats with
  | [] => Ret TBD
  | _ =>
      let log_stat_set : gset Status := list_to_set log_stats in
      (* All log files have the same status -> <common status> *)
      if decide (size log_stat_set = 1) then
        match elements log_stat_set with
        | s :: _ => Ret s
        | [] => Raise StopIteration
        end
      (* Some log files are still running -> RUNNING *)
      else if decide (RUNNING ∈ log_stat_set) then Ret RUNNING
      else
        (* Some log files have errors -> ERROR | OK_1E | OK_2E *)
        let error_count := length (filter (fun s => s = ERROR) log_stats) in
        let frac := error_frac error_count (length log_stats) in
        if bool_decide (error_count = 1) && Qltb frac small_thresh then Ret OK_1E
        else if bool_decide (error_count = 2) && Qltb frac small_thresh then Ret OK_2E
        else if decide (ERROR ∈ log_stat_set) then Ret ERROR
        else
          (* Some log files have warnings -> WARNING *)
          if decide (log_stat_set = {[OK; WARNING]}) then Ret WARNING
          else Raise (AssertionError OkWarningOnly)
  end.

Definition parse_subtask_status (path : string) (small_thresh : Q) : M Status :=
  log_dct <- log_paths_with_statuses path [] ;;
  let log_stats := map snd log_dct in
  lift (status_of_log_stats log_stats small_thresh).

Definition task_column_width (tasks : list Task.t) : M nat :=
  py_max (map (fun task => String.length (Task.name task)) tasks).

Definition subtask_keys (tasks : list Task.t) : list string :=
  unique_everseen (concat (map Task.subtask_keys tasks)).

(** [Path(v)] for a value taken from the data frame with [row.get]: only a
    string is accepted, NaN and None raise [TypeError]. *)
Definition as_path (v : option Cell) : M string :=
  match v with
  | Some (Str s) => ret s
  | _ => raise TypeError
  end.

Definition read_file {A} (files : World -> gmap string A) (path : string) : M A :=
  o <- reads (fun w => files w !! path) ;;
  match o with
  | Some a => ret a
  | None => raise (FileNotFoundError path)
  end.

(** ** What a pass observes: the logs of a directory *)

(** The dictionary [log_dct] that [log_paths_with_statuses(path)] builds in
    world [w], and the list [log_stats] of its values. *)
Definition log_dct_at (w : World) (path : string) : list (string * Status) :=
  let log_paths := default [] (fs_logs w !! path) in
  dict_of (zip log_paths (map (fs_status w) log_paths)).

Definition log_stats_at (w : World) (path : string) : list Status :=
  map snd (log_dct_at w path).

(** The number of logs with status ERROR. *)
Definition error_count_of (log_stats : list Status) : nat :=
  length (filter (fun s => s = ERROR) log_stats).

(** At least two distinct statuses occur. *)
Definition mixed (log_stats : list Status) : Prop :=
  exists a b, a ∈ log_stats /\ b ∈ log_stats /\ a <> b.

(** A computation that leaves the persisted world as it found it. *)
Definition read_only {A} (m : M A) : Prop := forall w, wld (m w) = w.

(** ** Worlds for the examples *)

(** The values of the statuses, for [colored_status_string] without colors. *)
Definition demo_status_string (s : Status) : string :=
  match s with
  | TBD => "TBD" | RUNNING => "RUNNING" | OK => "OK" | WARNING => "WARNING"
  | ERROR => "ERROR" | OK_1E => "OK_1E" | OK_2E => "OK_2E"
  end.

(** [str(Path(a) / b)] on POSIX paths that need no normalisation: an
    absolute [b] replaces [a]. *)
Definition demo_Path_div (a b : string) : string :=
  match b with
  | String "/"%char _ => b
  | _ => a +:+ "/" +:+ b
  end.

(** The log files [dir/out.log], [dir/outx.log], [dir/outxx.log], ... *)
Definition log_names (dir : string) (n : nat) : list string :=
  map (fun i => dir +:+ "/out" +:+ str_repeat "x" i +:+ ".log") (seq 0 n).

Definition dir_logs (dir : string) (stats : list Status) : list (string * Status) :=
  zip (log_names dir (length stats)) stats.

(** A world with one directory, whose logs have the statuses [stats]. *)
Definition logs_world (dir : string) (stats : list Status) : World :=
  mkWorld ∅ ∅ ∅ ∅ {[dir := log_names dir (length stats)]}
          (fun p => default TBD (dict_get (dir_logs dir stats) p)).

(** A set-up at [subtasks] with one group [g] and the work path [/work]. *)
Definition run_world (df : list Row) (tasks : list Task.t)
    (dirs : list (string * list (string * Status))) : World :=
  mkWorld {["subtasks"]}
          {["subtasks/info.yaml" := mkInfo ["g"] "/work"]}
          {["subtasks/g.csv" := df]}
          {["subtasks/g.yaml" := tasks]}
          (list_to_map (map (fun d => (d.1, map fst d.2)) dirs))
          (fun p => default TBD (dict_get (concat (map snd dirs)) p)).

(** A subtask directory as a process whose working directory is [/work]
    sees it: under its relative and under its absolute path. *)
Definition seen_from_work (dir : string) (stats : list Status)
  : list (string * list (string * Status)) :=
  [(dir, dir_logs dir stats); ("/work/" +:+ dir, dir_logs ("/work/" +:+ dir) stats)].

Definition demo_tasks : list Task.t :=
  [Task.mk "A" ["p1"; "p2"]; Task.mk "B" ["p1"; "p2"]].

(** Task A has two subtasks with OK logs only; the first subtask of task B
    has one ERROR among six logs, its second subtask has not run yet. *)
Definition demo_world : World :=
  run_world
    [ [("task", Str "A"); ("p1", Str "g/A/p1"); ("p2", Str "g/A/p2")];
      [("task", Str "B"); ("p1", Str "g/B/p1"); ("p2", Str "g/B/p2")] ]
    demo_tasks
    (seen_from_work "g/A/p1" [OK; OK] ++ seen_from_work "g/A/p2" [OK]
       ++ seen_from_work "g/B/p1" [OK; OK; ERROR; OK; OK; OK]).

(** Nothing has run yet for task B, which has no second subtask: its first
    cell names a directory that does not exist, its second cell is blank. *)
Definition blank_cell_world : World :=
  run_world
    [ [("task", Str "A"); ("p1", Str "g/A/p1"); ("p2", Str "g/A/p2")];
      [("task", Str "B"); ("p1", Str "g/B/p1"); ("p2", NaN)] ]
    [Task.mk "A" ["p1"; "p2"]; Task.mk "B" ["p1"]]
    (seen_from_work "g/A/p1" [OK; OK] ++ seen_from_work "g/A/p2" [OK]).

(** Nothing has run yet: the directory of the first subtask of task A has
    no log file, the directory of the second does not exist. *)
Definition fresh_world : World :=
  run_world
    [ [("task", Str "A"); ("p1", Str "g/A/p1"); ("p2", Str "g/A/p2")] ]
    [Task.mk "A" ["p1"; "p2"]]
    [("/work/g/A/p1", []); ("g/A/p1", [])].

(** The same as [demo_world], but the second row of the matrix is the row
    of a task X, where the catalog has task B. *)
Definition drifted_world : World :=
  run_world
    [ [("task", Str "A"); ("p1", Str "g/A/p1"); ("p2", Str "g/A/p2")];
      [("task", Str "X"); ("p1", Str "g/B/p1"); ("p2", Str "g/B/p2")] ]
    demo_tasks
    (seen_from_work "g/A/p1" [OK; OK] ++ seen_from_work "g/A/p2" [OK]
       ++ seen_from_work "g/B/p1" [OK; OK; ERROR; OK; OK; OK]).

(** The set-up of [demo_world] as a process sees it whose working
    directory is not [/work]: the subtask directories are found under
    their absolute paths only. *)
Definition elsewhere_world : World :=
  run_world
    [ [("task", Str "A"); ("p1", Str "g/A/p1"); ("p2", Str "g/A/p2")];
      [("task", Str "B"); ("p1", Str "g/B/p1"); ("p2", Str "g/B/p2")] ]
    demo_tasks
    [ ("/work/g/A/p1", dir_logs "/work/g/A/p1" [OK; OK]);
      ("/work/g/A/p2", dir_logs "/work/g/A/p2" [OK]);
      ("/work/g/B/p1", dir_logs "/work/g/B/p1" [OK; OK; ERROR; OK; OK; OK]) ].

(** A subtask with one OK log and one log that has not been classified. *)
Definition unmodeled_world : World :=
  run_world
    [ [("task", Str "A"); ("p1", Str "g/A/p1")] ]
    [Task.mk "A" ["p1"]]
    (seen_from_work "g/A/p1" [OK; TBD]).

(** The directory of [logs_world], with its log files found in the
    opposite order. *)
Definition reversed_logs_world (dir : string) (stats : list Status) : World :=
  mkWorld ∅ ∅ ∅ ∅ {[dir := reverse (log_names dir (length stats))]}
          (fs_status (logs_world dir stats)).

(** A directory [subtasks] that holds nothing. *)
Definition empty_setup_world : World :=
  mkWorld {["subtasks"]} ∅ ∅ ∅ ∅ (fun _ => TBD).

(** The set-up of [demo_world], whose manifest names a second group [h]
    for which no file was written. *)
Definition two_group_world : World :=
  mkWorld (fs_paths demo_world)
          {["subtasks/info.yaml" := mkInfo ["g"; "h"] "/work"]}
          (fs_csv demo_world) (fs_tasks demo_world)
          (fs_logs demo_world) (fs_status demo_world).

Section StatusPass.

(** Constants and helpers of [_check_log.py] and [_subtasks_setup.py], and
    the path join of [pathlib], which the module imports. *)
Variable STATUS_WIDTH : nat.
Variable colored_status_string : Status -> string.
Variable INFO_FILE : string.
Variable TableKey_task : string.
Variable Path_div : string -> string -> string.

Definition print_long_row_guide
    (label_width nvals : nat) (wrap : Z) (char : string) : M unit :=
  if (wrap <? Z.of_nat nvals)%Z then
    let total_width := (Z.of_nat label_width + (Z.of_nat STATUS_WIDTH + 1) * wrap)%Z in
    print (str_repeat char (Z.to_nat total_width))
  else ret tt.

(** One pass of the loop over the chunks: print the chunk, drop the label. *)
Definition print_chunk (label_width : nat) (label : string) (chunk_vals : list string)
  : M string :=
  let row := rjust label label_width in
  let row := row +:+ join " " (map (fun v => center v STATUS_WIDTH) chunk_vals) in
  print row ;;;
  ret "".

Definition print_task_row
    (label : string) (vals : list string) (label_width : nat) (wrap : Z) : M unit :=
  (* [islice] refuses a chunk size that is negative or above [sys.maxsize] *)
  (if ((wrap <? 0) || (sys_maxsize <? wrap))%Z then raise ValueError else ret tt) ;;;
  foldM (print_chunk label_width) (chunked vals (Z.to_nat wrap)) label ;;;
  (* If wrapping, add an extra dividing line as a guide *)
  print_long_row_guide label_width (length vals) wrap "-".

(** Body of [for task_key, row in df.iterrows()]. *)
Definition main_row (work_path : string) (tasks : list Task.t) (twidth : nat)
    (skeys : list string) (wrap : Z)
    (non_okay_log_records : list LogRecord) (item : nat * Row) : M (list LogRecord) :=
  let task_key := item.1 in
  let row := item.2 in
  task <- match tasks !! task_key with
          | Some t => ret t
          | None => raise IndexError
          end ;;
  row_task <- match dict_get row TableKey_task with
              | Some c => ret c
              | None => raise (KeyError TableKey_task)
              end ;;
  assert (bool_decide (row_task = Str (Task.name task)))
         (RowMatchesTask row (Task.name task)) ;;;
  let subtask_paths := map (dict_get row) skeys in
  subtask_abs_paths <-
    mapM (fun p => s <- as_path p ;; ret (Path_div work_path s)) subtask_paths ;;
  subtask_stats <-
    mapM (fun p => s <- parse_subtask_status p small_thresh_default ;;
                   ret (colored_status_string s)) subtask_abs_paths ;;
  print_task_row (Task.name task) subtask_stats twidth wrap ;;;
  new_records <-
    mapM (fun kp : string * option Cell =>
            spath <- as_path kp.2 ;;
            d <- log_paths_with_statuses spath [OK] ;;
            ret (map (fun ps : string * Status =>
                        (Task.name task, kp.1, ps.1, ps.2)) d))
         (zip skeys subtask_paths) ;;
  ret (non_okay_log_records ++ concat new_records).

(** Body of [for group_id in group_ids]. *)
Definition main_group (path work_path : string) (wrap : Z)
    (non_okay_log_records : list LogRecord) (group_id : string) : M (list LogRecord) :=
  df <- read_file fs_csv (Path_div path (group_id +:+ ".csv")) ;;
  tasks <- read_file fs_tasks (Path_div path (group_id +:+ ".yaml")) ;;
  twidth <- task_column_width tasks ;;
  let skeys := subtask_keys tasks in
  print_long_row_guide twidth (length skeys) wrap "#" ;;;
  print_task_row TableKey_task skeys twidth wrap ;;;
  records <- foldM (main_row work_path tasks twidth skeys wrap)
                   (zip (seq 0 (length df)) df) non_okay_log_records ;;
  print "" ;;;
  ret records.

(** One line of the listing of log files that are not OK. *)
Definition record_line (twidth swidth pwidth : nat) (r : LogRecord) : string :=
  let '(task_name, skey, log_path, stat) := r in
  ljust task_name twidth +:+ " " +:+ ljust skey swidth +:+ " "
    +:+ ljust log_path pwidth +:+ " " +:+ colored_status_string stat.

(** The end of [main], from [if non_okay_log_records:] on. *)
Definition print_non_okay_log_records (work_path : string)
    (non_okay_log_records : list LogRecord) : M unit :=
  match non_okay_log_records with
  | [] => ret tt
  | _ =>
      print ("Non-OK log files in " +:+ work_path +:+ ":") ;;;
      twidth <- py_max (map (fun r : LogRecord => String.length r.1.1.1) non_okay_log_records) ;;
      swidth <- py_max (map (fun r : LogRecord => String.length r.1.1.2) non_okay_log_records) ;;
      pwidth <- py_max (map (fun r : LogRecord => String.length r.1.2) non_okay_log_records) ;;
      foldM (fun _ r => print (record_line twidth swidth pwidth r)) non_okay_log_records tt
  end ;;;
  print "".

Definition main (path : string) (wrap : Z) : M unit :=
  path_exists <- reads (fun w => bool_decide (path ∈ fs_paths w)) ;;
  assert path_exists (PathExists path) ;;;
  let info_path := Path_div path INFO_FILE in
  info_dct <- read_file fs_info info_path ;;
  let group_ids := group_ids info_dct in
  let work_path := work_path info_dct in
  non_okay_log_records <- foldM (main_group path work_path wrap) group_ids [] ;;
  print_non_okay_log_records work_path non_okay_log_records.


(** The line that [print_chunk] prints, the lines of all chunks of a row
    and the line (if any) of [print_long_row_guide]. *)
Definition chunk_line (label_width : nat) (label : string) (chunk_vals : list string) : string :=
  rjust label label_width +:+ join " " (map (fun v => center v STATUS_WIDTH) chunk_vals).

Definition chunk_lines (label_width : nat) (label : string) (chunks : list (list string))
  : list string :=
  match chunks with
  | [] => []
  | c :: cs => chunk_line label_width label c :: map (chunk_line label_width "") cs
  end.

Definition guide_width (label_width : nat) (wrap : Z) : Z :=
  (Z.of_nat label_width + (Z.of_nat STATUS_WIDTH + 1) * wrap)%Z.

Definition guide_lines (label_width nvals : nat) (wrap : Z) (char : string) : list string :=
  if (wrap <? Z.of_nat nvals)%Z
  then [str_repeat char (Z.to_nat (guide_width label_width wrap))]
  else [].

(** The label width that [task_column_width] returns for a catalog with at
    least one task. *)
Definition twidth_of (tasks : list Task.t) : nat :=
  match map (fun task => String.length (Task.name task)) tasks with
  | [] => 0
  | x :: xs => fold_left Nat.max xs x
  end.

(** The lines that [main] prints for a group before its first row: the
    guide above the header, the header chunks, the guide below them. *)
Definition header_lines (tasks : list Task.t) (wrap : Z) : list string :=
  let twidth := twidth_of tasks in
  let skeys := subtask_keys tasks in
  guide_lines twidth (length skeys) wrap "#"
    ++ chunk_lines twidth TableKey_task (chunked skeys (Z.to_nat wrap))
    ++ guide_lines twidth (length skeys) wrap "-".

(** The entries of a directory whose status is not OK, as the listing
    collects them with [exclude_stats=[Status.OK]]. *)
Definition non_ok_logs (w : World) (path : string) : list (string * Status) :=
  filter (fun kv => kv.2 ∉ [OK]) (log_dct_at w path).

(** The records that [main] collects for one cell, one row, one group and
    the whole run. *)
Definition cell_records (w : World) (task_name skey : string) (cell : option Cell)
  : list LogRecord :=
  match cell with
  | Some (Str spath) =>
      map (fun ps : string * Status => (task_name, skey, ps.1, ps.2)) (non_ok_logs w spath)
  | _ => []
  end.

Definition row_records (w : World) (tasks : list Task.t) (skeys : list string)
    (item : nat * Row) : list LogRecord :=
  match tasks !! item.1 with
  | Some task =>
      concat (map (fun skey => cell_records w (Task.name task) skey (dict_get item.2 skey))
                  skeys)
  | None => []
  end.

Definition group_records (w : World) (path group_id : string) : list LogRecord :=
  match fs_csv w !! Path_div path (group_id +:+ ".csv"),
        fs_tasks w !! Path_div path (group_id +:+ ".yaml") with
  | Some df, Some tasks =>
      concat (map (row_records w tasks (subtask_keys tasks)) (zip (seq 0 (length df)) df))
  | _, _ => []
  end.

Definition run_records (w : World) (path : string) : list LogRecord :=
  match fs_info w !! Path_div path INFO_FILE with
  | Some info => concat (map (group_records w path) (group_ids info))
  | None => []
  end.

(** [max(len(r[i]) for r in records)] *)
Definition max_len (field : LogRecord -> string) (records : list LogRecord) : nat :=
  match map (fun r => String.length (field r)) records with
  | [] => 0
  | x :: xs => fold_left Nat.max xs x
  end.

(** The lines that end the report. *)
Definition listing_lines (work_path : string) (records : list LogRecord) : list string :=
  match records with
  | [] => [""]
  | _ =>
      ("Non-OK log files in " +:+ work_path +:+ ":")
        :: map (record_line (max_len (fun r => r.1.1.1) records)
                            (max_len (fun r => r.1.1.2) records)
                            (max_len (fun r => r.1.2) records)) records
        ++ [""]
  end.

(** The listing as the specification words it: one record for every log
    that is not OK in the subtask directory [Path(work_path) / cell], the
    directory whose status the table shows, with the absolute path of the
    log. *)
Definition spec_cell_records (w : World) (work_path task_name skey : string)
    (cell : option Cell) : list LogRecord :=
  match cell with
  | Some (Str spath) =>
      map (fun ps : string * Status => (task_name, skey, ps.1, ps.2))
          (non_ok_logs w (Path_div work_path spath))
  | _ => []
  end.

Definition spec_run_records (w : World) (path : string) : list LogRecord :=
  match fs_info w !! Path_div path INFO_FILE with
  | Some info =>
      concat (map (fun group_id =>
        match fs_csv w !! Path_div path (group_id +:+ ".csv"),
              fs_tasks w !! Path_div path (group_id +:+ ".yaml") with
        | Some df, Some tasks =>
            concat (map (fun item : nat * Row =>
              match tasks !! item.1 with
              | Some task =>
                  concat (map (fun skey =>
                    spec_cell_records w (work_path info) (Task.name task) skey
                                      (dict_get item.2 skey))
                    (subtask_keys tasks))
              | None => []
              end) (zip (seq 0 (length df)) df))
        | _, _ => []
        end) (group_ids info))
  | None => []
  end.

Definition listing_as_specified (w : World) (path : string) (wrap : Z) : Prop :=
  exists info tables,
    fs_info w !! Path_div path INFO_FILE = Some info /\
    out (main path wrap w)
    = tables ++ listing_lines (work_path info) (spec_run_records w path).

(** The integrity check as the specification words it: made when the
    group is loaded, before anything of the group is rendered. *)
Definition integrity_checked_before_rendering
    (w : World) (path work_path : string) (wrap : Z) (group_id : string) : Prop :=
  forall df tasks i row task c,
    fs_csv w !! Path_div path (group_id +:+ ".csv") = Some df ->
    fs_tasks w !! Path_div path (group_id +:+ ".yaml") = Some tasks ->
    df !! i = Some row -> tasks !! i = Some task ->
    dict_get row TableKey_task = Some c -> c <> Str (Task.name task) ->
    out (main_group path work_path wrap [] group_id w) = [].

(** A cell as C4 has it: blank, or the path of a directory that does not
    exist or that has no log file. *)
Definition logless (w : World) (work_path : string) (cell : option Cell) : Prop :=
  exists spath, cell = Some (Str spath) /\
    (fs_logs w !! Path_div work_path spath = None \/
     fs_logs w !! Path_div work_path spath = Some []).

Definition blank_or_logless (w : World) (work_path : string) (cell : option Cell) : Prop :=
  cell = Some NaN \/ logless w work_path cell.

(** C4 as the specification words it: a row of such cells is rendered
    without an exception, with TBD for every key. *)
Definition cells_render_as_TBD (w : World) (work_path : string) (tasks : list Task.t)
    (twidth : nat) (skeys : list string) (wrap : Z) (i : nat) (row : Row) : Prop :=
  forall task,
    tasks !! i = Some task ->
    dict_get row TableKey_task = Some (Str (Task.name task)) ->
    (forall skey, skey ∈ skeys -> blank_or_logless w work_path (dict_get row skey)) ->
    exists records,
      main_row work_path tasks twidth skeys wrap [] (i, row) w
      = mkOutcome (Ret records) w
          (out (print_task_row (Task.name task)
                  (map (fun _ => colored_status_string TBD) skeys) twidth wrap w)).

(** A computation that prints nothing. *)
Definition silent {A} (m : M A) : Prop := forall w, out (m w) = [].

(** The text of a cell of the table: the colored status of the subtask
    directory [Path(work_path) / cell]. *)
Definition cell_text (w : World) (work_path : string) (row : Row) (skey : string) : string :=
  match dict_get row skey with
  | Some (Str spath) =>
      match status_of_log_stats (log_stats_at w (Path_div work_path spath))
                                small_thresh_default with
      | Ret s => colored_status_string s
      | Raise _ => ""
      end
  | _ => ""
  end.

(** The lines of a row of the table, and the lines of a group. *)
Definition row_lines (w : World) (work_path : string) (tasks : list Task.t) (wrap : Z)
    (item : nat * Row) : list string :=
  match tasks !! item.1 with
  | Some task =>
      chunk_lines (twidth_of tasks) (Task.name task)
                  (chunked (map (cell_text w work_path item.2) (subtask_keys tasks))
                           (Z.to_nat wrap))
        ++ guide_lines (twidth_of tasks) (length (subtask_keys tasks)) wrap "-"
  | None => []
  end.

Definition group_lines (w : World) (path work_path : string) (wrap : Z) (group_id : string)
  : list string :=
  match fs_csv w !! Path_div path (group_id +:+ ".csv"),
        fs_tasks w !! Path_div path (group_id +:+ ".yaml") with
  | Some df, Some tasks =>
      header_lines tasks wrap
        ++ concat (map (row_lines w work_path tasks wrap) (zip (seq 0 (length df)) df))
        ++ [""]
  | _, _ => []
  end.

(** * Properties *)

(** ** The monad *)

Lemma bind_run {A B} (m : M A) (k : A -> M B) w a w' o :
  m w = mkOutcome (Ret a) w' o ->
  bind m k w = mkOutcome (res (k a w')) (wld (k a w')) (o ++ out (k a w')).
Proof. intros H. unfold bind. rewrite H. reflexivity. Qed.

Lemma bind_raise {A B} (m : M A) (k : A -> M B) w e w' o :
  m w = mkOutcome (Raise e) w' o ->
  bind m k w = mkOutcome (Raise e) w' o.
Proof. intros H. unfold bind. rewrite H. reflexivity. Qed.

Lemma outcome_eta {A} (o : Outcome A) : o = mkOutcome (res o) (wld o) (out o).
Proof. destruct o; reflexivity. Qed.

Lemma read_only_ret {A} (a : A) : read_only (ret a).
Proof. intros w. reflexivity. Qed.

Lemma read_only_raise {A} e : read_only (@raise A e).
Proof. intros w. reflexivity. Qed.

Lemma read_only_lift {A} (r : Res A) : read_only (lift r).
Proof. intros w. reflexivity. Qed.

Lemma read_only_print s : read_only (print s).
Proof. intros w. reflexivity. Qed.

Lemma read_only_reads {A} (f : World -> A) : read_only (reads f).
Proof. intros w. reflexivity. Qed.

Lemma read_only_bind {A B} (m : M A) (k : A -> M B) :
  read_only m -> (forall a, read_only (k a)) -> read_only (bind m k).
Proof.
  intros Hm Hk w. unfold bind.
  destruct (res (m w)) as [a|e] eqn:E; simpl.
  - rewrite Hk. apply Hm.
  - apply Hm.
Qed.

Lemma read_only_assert c a : read_only (assert c a).
Proof. destruct c; [apply read_only_ret | apply read_only_raise]. Qed.

Lemma read_only_foldM {A B} (body : B -> A -> M B) xs :
  (forall acc x, read_only (body acc x)) -> forall acc, read_only (foldM body xs acc).
Proof.
  intros Hb. induction xs as [|x xs IH]; intros acc; simpl.
  - apply read_only_ret.
  - apply read_only_bind; [apply Hb | intros acc'; apply IH].
Qed.

Lemma read_only_mapM {A B} (f : A -> M B) xs :
  (forall x, read_only (f x)) -> read_only (mapM f xs).
Proof.
  intros Hf. induction xs as [|x xs IH]; simpl.
  - apply read_only_ret.
  - apply read_only_bind; [apply Hf | intros y].
    apply read_only_bind; [apply IH | intros ys; apply read_only_ret].
Qed.

Lemma read_only_py_max xs : read_only (py_max xs).
Proof. destruct xs; [apply read_only_raise | apply read_only_ret]. Qed.

Lemma read_only_read_file {A} (files : World -> gmap string A) path :
  read_only (read_file files path).
Proof.
  apply read_only_bind; [apply read_only_reads | intros [a|]].
  - apply read_only_ret.
  - apply read_only_raise.
Qed.

Create HintDb ro discriminated.
#[local] Hint Resolve read_only_ret read_only_raise read_only_lift read_only_print
  read_only_reads read_only_assert read_only_py_max read_only_read_file : ro.

Ltac ro_step :=
  first
    [ solve [auto with ro]
    | apply read_only_bind; [| intros ?]
    | apply read_only_foldM; intros ? ?
    | apply read_only_mapM; intros ?
    | match goal with
      | |- read_only (match ?x with _ => _ end) => destruct x
      | |- read_only (if ?c then _ else _) => destruct c
      end ].

Ltac ro := repeat ro_step.

(** ** Scanning a directory *)

Lemma mapM_parse_log_status paths w :
  mapM parse_log_status paths w = mkOutcome (Ret (map (fs_status w) paths)) w [].
Proof.
  induction paths as [|p ps IH]; simpl; [reflexivity|].
  erewrite bind_run by reflexivity.
  erewrite bind_run by apply IH. reflexivity.
Qed.

Lemma log_paths_with_statuses_run path exclude_stats w :
  log_paths_with_statuses path exclude_stats w =
  mkOutcome (Ret (filter (fun kv => kv.2 ∉ exclude_stats) (log_dct_at w path))) w [].
Proof.
  unfold log_paths_with_statuses.
  erewrite bind_run by reflexivity.
  erewrite bind_run by apply mapM_parse_log_status. reflexivity.
Qed.

Lemma filter_nothing_excluded (d : list (string * Status)) :
  filter (fun kv => kv.2 ∉ []) d = d.
Proof.
  induction d as [|kv d IH]; [reflexivity|].
  rewrite filter_cons_True; [by rewrite IH | apply not_elem_of_nil].
Qed.

Lemma parse_subtask_status_run path small_thresh w :
  parse_subtask_status path small_thresh w =
  mkOutcome (status_of_log_stats (log_stats_at w path) small_thresh) w [].
Proof.
  unfold parse_subtask_status.
  erewrite bind_run by apply log_paths_with_statuses_run.
  rewrite filter_nothing_excluded. reflexivity.
Qed.

(** ** The rule table *)

Lemma Qltb_lt (x y : Q) : Qltb x y = true <-> (x < y)%Q.
Proof.
  unfold Qltb. rewrite Qlt_alt.
  destruct (x ?= y)%Q; split; intros H; congruence.
Qed.

(** For one or two errors among up to 300 logs the comparison in double
    precision and the exact comparison agree; beyond, both are true. *)
Lemma float_guard_agrees :
  forallb (fun n =>
    forallb (fun k => Bool.eqb (float_guard k n)
                               (Qltb (error_frac k n) small_thresh_default))
            [1; 2])
    (seq 1 300) = true.
Proof. vm_compute. reflexivity. Qed.

Lemma error_frac_small_1 n :
  (error_frac 1 n < small_thresh_default)%Q <-> 6 <= n.
Proof.
  unfold error_frac, small_thresh_default, Qlt. simpl.
  destruct n as [|n]; [simpl; lia|].
  assert (H : Z.pos (Pos.of_nat (S n)) = Z.of_nat (S n)).
  { rewrite <- positive_nat_Z. rewrite Nat2Pos.id by lia. reflexivity. }
  rewrite H. lia.
Qed.

Lemma error_frac_small_2 n :
  (error_frac 2 n < small_thresh_default)%Q <-> 11 <= n.
Proof.
  unfold error_frac, small_thresh_default, Qlt. simpl.
  destruct n as [|n]; [simpl; lia|].
  assert (H : Z.pos (Pos.of_nat (S n)) = Z.of_nat (S n)).
  { rewrite <- positive_nat_Z. rewrite Nat2Pos.id by lia. reflexivity. }
  rewrite H. lia.
Qed.

Lemma stat_set_common (log_stats : list Status) X :
  log_stats <> [] -> (forall s, s ∈ log_stats -> s = X) ->
  (list_to_set log_stats : gset Status) = {[X]}.
Proof.
  intros Hne Hall. apply set_eq. intros x.
  rewrite elem_of_list_to_set, elem_of_singleton. split; [apply Hall|].
  intros ->. destruct log_stats as [|a l]; [done|].
  rewrite <- (Hall a) by left. left.
Qed.

Lemma mixed_size (log_stats : list Status) :
  mixed log_stats -> size (list_to_set log_stats : gset Status) <> 1.
Proof.
  intros (a & b & Ha & Hb & Hab) Hsz.
  apply size_1_elem_of in Hsz as [x Hx].
  assert (Hin : forall s, s ∈ log_stats -> s = x).
  { intros s Hs. apply (elem_of_list_to_set (C := gset Status)) in Hs.
    rewrite Hx in Hs. by apply elem_of_singleton in Hs. }
  rewrite (Hin a Ha), (Hin b Hb) in Hab. done.
Qed.

Lemma mixed_nonempty (log_stats : list Status) : mixed log_stats -> log_stats <> [].
Proof. intros (a & _ & Ha & _) ->. by apply not_elem_of_nil in Ha. Qed.

Lemma not_common_mixed (log_stats : list Status) :
  log_stats <> [] -> ~ (exists X, forall s, s ∈ log_stats -> s = X) -> mixed log_stats.
Proof.
  intros Hne Hnc. destruct log_stats as [|a l]; [done|].
  destruct (decide (Forall (fun s => s = a) l)) as [Hall|Hnall].
  - exfalso. apply Hnc. exists a. intros s [->|Hs]%elem_of_cons; [done|].
    by eapply Forall_forall in Hall.
  - apply not_Forall_Exists in Hnall; [|apply _].
    apply Exists_exists in Hnall as (b & Hb & Hne').
    exists a, b. split; [left|]. split; [by right|]. congruence.
Qed.

(** All logs share one status: the first rule. *)
Lemma status_of_log_stats_common log_stats small_thresh X :
  log_stats <> [] -> (forall s, s ∈ log_stats -> s = X) ->
  status_of_log_stats log_stats small_thresh = Ret X.
Proof.
  intros Hne Hall. unfold status_of_log_stats.
  destruct log_stats as [|a l] eqn:E; [done|]. rewrite <- E in *.
  rewrite (stat_set_common _ X Hne Hall).
  rewrite size_singleton, elements_singleton.
  destruct (decide (1 = 1)); [reflexivity | done].
Qed.

(** The rule table below the first rule. *)
Lemma status_of_log_stats_mixed log_stats small_thresh :
  mixed log_stats ->
  status_of_log_stats log_stats small_thresh =
    if decide (RUNNING ∈ log_stats) then Ret RUNNING
    else if bool_decide (error_count_of log_stats = 1)
            && Qltb (error_frac (error_count_of log_stats) (length log_stats)) small_thresh
         then Ret OK_1E
    else if bool_decide (error_count_of log_stats = 2)
            && Qltb (error_frac (error_count_of log_stats) (length log_stats)) small_thresh
         then Ret OK_2E
    else if decide (ERROR ∈ log_stats) then Ret ERROR
    else if decide ((list_to_set log_stats : gset Status) = {[OK; WARNING]}) then Ret WARNING
    else Raise (AssertionError OkWarningOnly).
Proof.
  intros Hmix. unfold status_of_log_stats.
  pose proof (mixed_nonempty _ Hmix) as Hne.
  pose proof (mixed_size _ Hmix) as Hsz.
  destruct log_stats as [|a l] eqn:E; [done|]. rewrite <- E in *.
  rewrite decide_False by done.
  fold (error_count_of log_stats).
  rewrite (decide_ext (RUNNING ∈ (list_to_set log_stats : gset Status)) (RUNNING ∈ log_stats))
    by apply elem_of_list_to_set.
  rewrite (decide_ext (ERROR ∈ (list_to_set log_stats : gset Status)) (ERROR ∈ log_stats))
    by apply elem_of_list_to_set.
  reflexivity.
Qed.

Lemma error_count_elem (log_stats : list Status) :
  0 < error_count_of log_stats <-> ERROR ∈ log_stats.
Proof.
  unfold error_count_of. induction log_stats as [|a l IH]; simpl.
  - split; [lia | by intros ?%not_elem_of_nil].
  - destruct (decide (a = ERROR)) as [->|Hne].
    + rewrite filter_cons_True by done. simpl. split; [intros _; left | lia].
    + rewrite filter_cons_False by done. rewrite IH.
      rewrite elem_of_cons. split; [by right | intros [E|H]; [congruence | done]].
Qed.

Lemma guard_true k n th :
  (error_frac k n < th)%Q ->
  forall c, c = k -> bool_decide (c = k) && Qltb (error_frac c n) th = true.
Proof.
  intros Hlt c ->. rewrite bool_decide_eq_true_2 by done.
  simpl. by apply Qltb_lt.
Qed.

Lemma guard_false k n th :
  forall c, ~ (c = k /\ (error_frac k n < th)%Q) ->
  bool_decide (c = k) && Qltb (error_frac c n) th = false.
Proof.
  intros c Hn. destruct (decide (c = k)) as [->|Hne].
  - rewrite bool_decide_eq_true_2 by done. simpl.
    destruct (Qltb (error_frac k n) th) eqn:E; [|done].
    exfalso. apply Hn. split; [done | by apply Qltb_lt].
  - by rewrite bool_decide_eq_false_2.
Qed.

(** C1: among mixed logs without RUNNING, one error below the threshold gives
    OK_1E, two errors below the threshold give OK_2E, and any other
    combination with an ERROR gives ERROR; one ERROR out of five logs has
    fraction exactly 0.2 and gives ERROR. *)
Theorem parse_subtask_status_errors (w : World) (path : string) :
  let log_stats := log_stats_at w path in
  let n := length log_stats in
  let k := error_count_of log_stats in
  let small := small_thresh_default in
  mixed log_stats -> RUNNING ∉ log_stats ->
  (k = 1 -> (error_frac 1 n < small)%Q ->
     parse_subtask_status path small w = mkOutcome (Ret OK_1E) w []) /\
  (k = 2 -> (error_frac 2 n < small)%Q ->
     parse_subtask_status path small w = mkOutcome (Ret OK_2E) w []) /\
  (ERROR ∈ log_stats ->
     ~ (k = 1 /\ (error_frac 1 n < small)%Q) ->
     ~ (k = 2 /\ (error_frac 2 n < small)%Q) ->
     parse_subtask_status path small w = mkOutcome (Ret ERROR) w []) /\
  (k = 1 -> n = 5 ->
     parse_subtask_status path small w = mkOutcome (Ret ERROR) w []).
Proof.
  intros log_stats n k small Hmix Hrun.
  assert (Hgen : ERROR ∈ log_stats ->
     ~ (k = 1 /\ (error_frac 1 n < small)%Q) ->
     ~ (k = 2 /\ (error_frac 2 n < small)%Q) ->
     parse_subtask_status path small w = mkOutcome (Ret ERROR) w []).
  { intros Herr H1 H2.
    rewrite parse_subtask_status_run. fold log_stats.
    rewrite (status_of_log_stats_mixed _ _ Hmix).
    rewrite decide_False by done. fold k n.
    rewrite (guard_false 1 n small k H1), (guard_false 2 n small k H2).
    by rewrite decide_True. }
  repeat split.
  - intros Hk Hlt.
    rewrite parse_subtask_status_run. fold log_stats.
    rewrite (status_of_log_stats_mixed _ _ Hmix).
    rewrite decide_False by done. fold k n.
    by rewrite (guard_true 1 n small Hlt k Hk).
  - intros Hk Hlt.
    rewrite parse_subtask_status_run. fold log_stats.
    rewrite (status_of_log_stats_mixed _ _ Hmix).
    rewrite decide_False by done. fold k n.
    rewrite (guard_false 1 n small k) by (intros [? _]; lia).
    by rewrite (guard_true 2 n small Hlt k Hk).
  - exact Hgen.
  - intros Hk Hn. apply Hgen.
    + apply error_count_elem. fold k. lia.
    + intros [_ Hlt]. apply error_frac_small_1 in Hlt. lia.
    + intros [Hk2 _]. lia.
Qed.

(** C10: the OK_1E and OK_2E outcomes look at the number of logs and of
    errors only; the statuses of the other logs (TBD, WARNING, ..., with or
    without any OK) do not matter as long as none is RUNNING. *)
Theorem parse_subtask_status_tolerates_any_rest (w : World) (path : string) :
  let log_stats := log_stats_at w path in
  RUNNING ∉ log_stats ->
  (error_count_of log_stats = 1 -> 6 <= length log_stats ->
     parse_subtask_status path small_thresh_default w = mkOutcome (Ret OK_1E) w []) /\
  (error_count_of log_stats = 2 -> 11 <= length log_stats ->
     parse_subtask_status path small_thresh_default w = mkOutcome (Ret OK_2E) w []).
Proof.
  intros log_stats Hrun.
  assert (Hmix : forall k, error_count_of log_stats = k -> 0 < k ->
                           k < length log_stats -> mixed log_stats).
  { intros k Hk Hpos Hlt.
    assert (Herr : ERROR ∈ log_stats) by (apply error_count_elem; lia).
    destruct (decide (Forall (fun s => s = ERROR) log_stats)) as [Hall|Hnall].
    - exfalso. unfold error_count_of in Hk.
      assert (filter (fun s => s = ERROR) log_stats = log_stats) as Hf.
      { clear -Hall. induction Hall as [|x l Hx _ IH]; [done|].
        rewrite filter_cons_True by done. by rewrite IH. }
      rewrite Hf in Hk. lia.
    - apply not_Forall_Exists in Hnall; [|apply _].
      apply Exists_exists in Hnall as (b & Hb & Hne).
      exists ERROR, b. repeat split; [done | done | congruence]. }
  split.
  - intros Hk Hn.
    rewrite parse_subtask_status_run. fold log_stats.
    rewrite (status_of_log_stats_mixed _ _ (Hmix 1 Hk ltac:(lia) ltac:(lia))).
    rewrite decide_False by done.
    rewrite (guard_true 1 (length log_stats) small_thresh_default); [done| |done].
    by apply error_frac_small_1.
  - intros Hk Hn.
    rewrite parse_subtask_status_run. fold log_stats.
    rewrite (status_of_log_stats_mixed _ _ (Hmix 2 Hk ltac:(lia) ltac:(lia))).
    rewrite decide_False by done.
    rewrite (guard_false 1) by (intros [? _]; lia).
    rewrite (guard_true 2 (length log_stats) small_thresh_default); [done| |done].
    by apply error_frac_small_2.
Qed.

(** C3: if all logs share one status the result is that status, whatever it
    is; otherwise any RUNNING log makes the result RUNNING. *)
Theorem parse_subtask_status_common_then_running (w : World) (path : string) (small_thresh : Q) :
  let log_stats := log_stats_at w path in
  log_stats <> [] ->
  (forall X, (forall s, s ∈ log_stats -> s = X) ->
     parse_subtask_status path small_thresh w = mkOutcome (Ret X) w []) /\
  (~ (exists X, forall s, s ∈ log_stats -> s = X) -> RUNNING ∈ log_stats ->
     parse_subtask_status path small_thresh w = mkOutcome (Ret RUNNING) w []).
Proof.
  intros log_stats Hne. split.
  - intros X Hall. rewrite parse_subtask_status_run. fold log_stats.
    by rewrite (status_of_log_stats_common _ _ X Hne Hall).
  - intros Hnc Hrun. rewrite parse_subtask_status_run. fold log_stats.
    rewrite (status_of_log_stats_mixed _ _ (not_common_mixed _ Hne Hnc)).
    by rewrite decide_True.
Qed.

(** ** Nothing is written *)

Lemma read_only_log_paths_with_statuses path exclude_stats :
  read_only (log_paths_with_statuses path exclude_stats).
Proof. intros w. by rewrite log_paths_with_statuses_run. Qed.

Lemma read_only_parse_subtask_status path small_thresh :
  read_only (parse_subtask_status path small_thresh).
Proof. intros w. by rewrite parse_subtask_status_run. Qed.

Lemma read_only_as_path v : read_only (as_path v).
Proof. unfold as_path. ro. Qed.

Lemma read_only_print_long_row_guide label_width nvals wrap char :
  read_only (print_long_row_guide label_width nvals wrap char).
Proof. unfold print_long_row_guide. ro. Qed.

Lemma read_only_print_task_row label vals label_width wrap :
  read_only (print_task_row label vals label_width wrap).
Proof.
  unfold print_task_row, print_chunk. ro.
  apply read_only_print_long_row_guide.
Qed.

#[local] Hint Resolve read_only_log_paths_with_statuses read_only_parse_subtask_status
  read_only_as_path read_only_print_long_row_guide read_only_print_task_row : ro.

Lemma read_only_main_row work_path tasks twidth skeys wrap records item :
  read_only (main_row work_path tasks twidth skeys wrap records item).
Proof. unfold main_row. ro. Qed.

#[local] Hint Resolve read_only_main_row : ro.

Lemma read_only_main_group path work_path wrap records group_id :
  read_only (main_group path work_path wrap records group_id).
Proof. unfold main_group, task_column_width. ro. Qed.

#[local] Hint Resolve read_only_main_group : ro.

Lemma read_only_print_non_okay_log_records work_path records :
  read_only (print_non_okay_log_records work_path records).
Proof. unfold print_non_okay_log_records. ro. Qed.

#[local] Hint Resolve read_only_print_non_okay_log_records : ro.

Lemma read_only_main path wrap : read_only (main path wrap).
Proof. unfold main. ro. Qed.

(** C9: whatever the arguments and the world, and whether the pass ends
    normally or with an exception, the manifest, the catalogs, the matrices,
    the directories and the logs are afterwards what they were before; so
    they still are after any number of passes. *)
Theorem main_read_only (path : string) (wrap : Z) (w : World) :
  wld (main path wrap w) = w /\
  forall n, Nat.iter n (fun w' => wld (main path wrap w')) w = w.
Proof.
  pose proof (read_only_main path wrap) as Hro.
  split; [apply Hro|].
  intros n. induction n as [|n IH]; [reflexivity|].
  rewrite Nat.iter_succ, IH. apply Hro.
Qed.

(** ** The renderer *)

Lemma length_string_app (s1 s2 : string) :
  String.length (s1 +:+ s2) = String.length s1 + String.length s2.
Proof. induction s1 as [|a s1 IH]; simpl; [reflexivity | by rewrite IH]. Qed.

Lemma length_str_repeat (c : string) n :
  String.length (str_repeat c n) = n * String.length c.
Proof.
  induction n as [|n IH]; simpl; [reflexivity|].
  rewrite length_string_app, IH. lia.
Qed.

Lemma length_spaces n : String.length (spaces n) = n.
Proof. unfold spaces. rewrite length_str_repeat. simpl. lia. Qed.

Lemma chunked_go_concat {A} fuel n (vals : list A) :
  1 <= n -> length vals <= fuel -> concat (chunked_go fuel n vals) = vals.
Proof.
  intros Hn. revert vals. induction fuel as [|fuel IH]; intros vals Hlen.
  - destruct vals; [reflexivity | simpl in Hlen; lia].
  - simpl. destruct (take n vals) as [|x c] eqn:E.
    + destruct vals as [|v vals]; [reflexivity|].
      destruct n; [lia | discriminate].
    + simpl. rewrite IH.
      * rewrite app_comm_cons, <- E. apply take_drop.
      * rewrite length_drop.
        destruct vals as [|v vals]; [by rewrite take_nil in E|]. simpl in *. lia.
Qed.

Lemma chunked_go_sizes {A} fuel n (vals : list A) :
  1 <= n -> Forall (fun c => 1 <= length c <= n) (chunked_go fuel n vals).
Proof.
  intros Hn. revert vals. induction fuel as [|fuel IH]; intros vals; simpl; [constructor|].
  destruct (take n vals) as [|x c] eqn:E; constructor; [|apply IH].
  rewrite <- E, length_take. split; [|lia].
  destruct vals as [|v vals]; [by rewrite take_nil in E | simpl; lia].
Qed.

Lemma chunked_go_length {A} fuel n (vals : list A) :
  1 <= n -> length vals <= fuel ->
  length (chunked_go fuel n vals) = (length vals + n - 1) / n.
Proof.
  intros Hn. revert vals. induction fuel as [|fuel IH]; intros vals Hlen.
  - destruct vals; [|simpl in Hlen; lia]. simpl.
    symmetry. apply Nat.div_small. lia.
  - simpl. destruct (take n vals) as [|x c] eqn:E.
    + destruct vals as [|v vals]; [|destruct n; [lia | discriminate]].
      simpl. symmetry. apply Nat.div_small. lia.
    + assert (Hpos : 1 <= length vals).
      { destruct vals; [by rewrite take_nil in E | simpl; lia]. }
      simpl. rewrite IH by (rewrite length_drop; lia).
      rewrite length_drop.
      destruct (decide (n <= length vals)) as [Hle|Hgt].
      * replace (length vals + n - 1) with ((length vals - n + n - 1) + 1 * n) by lia.
        rewrite Nat.div_add by lia. lia.
      * replace (length vals - n + n - 1) with (n - 1) by lia.
        rewrite (Nat.div_small (n - 1)) by lia.
        apply (Nat.div_unique _ _ 1 (length vals - 1)); lia.
Qed.

Lemma print_long_row_guide_run label_width nvals wrap char w :
  print_long_row_guide label_width nvals wrap char w =
  mkOutcome (Ret tt) w (guide_lines label_width nvals wrap char).
Proof.
  unfold print_long_row_guide, guide_lines, guide_width.
  destruct (wrap <? Z.of_nat nvals)%Z; reflexivity.
Qed.

Lemma print_run line w : print line w = mkOutcome (Ret tt) w [line].
Proof. reflexivity. Qed.

Lemma ret_run {A} (a : A) w : ret a w = mkOutcome (Ret a) w [].
Proof. reflexivity. Qed.

Lemma print_chunk_run label_width label chunk_vals w :
  print_chunk label_width label chunk_vals w =
  mkOutcome (Ret "") w [chunk_line label_width label chunk_vals].
Proof.
  unfold print_chunk. erewrite bind_run by apply print_run. reflexivity.
Qed.

Lemma foldM_print_chunk label_width chunks label w :
  foldM (print_chunk label_width) chunks label w =
  mkOutcome (Ret (match chunks with [] => label | _ => "" end)) w
            (chunk_lines label_width label chunks).
Proof.
  assert (Hrest : forall cs, foldM (print_chunk label_width) cs "" w =
            mkOutcome (Ret "") w (map (chunk_line label_width "") cs)).
  { induction cs as [|c cs IH]; simpl; [reflexivity|].
    erewrite bind_run by apply print_chunk_run. rewrite IH. reflexivity. }
  destruct chunks as [|c cs]; simpl; [reflexivity|].
  erewrite bind_run by apply print_chunk_run. rewrite Hrest. reflexivity.
Qed.

Lemma print_task_row_run label vals label_width wrap w :
  (0 <= wrap <= sys_maxsize)%Z ->
  print_task_row label vals label_width wrap w =
  mkOutcome (Ret tt) w
    (chunk_lines label_width label (chunked vals (Z.to_nat wrap))
       ++ guide_lines label_width (length vals) wrap "-").
Proof.
  intros Hw. unfold print_task_row.
  destruct (Z.ltb_spec wrap 0) as [?|_]; [lia|].
  destruct (Z.ltb_spec sys_maxsize wrap) as [?|_]; [lia|].
  cbn [orb].
  erewrite bind_run by apply ret_run.
  erewrite bind_run by apply foldM_print_chunk.
  rewrite print_long_row_guide_run. reflexivity.
Qed.

Lemma print_task_row_negative label vals label_width wrap w :
  (wrap < 0)%Z ->
  print_task_row label vals label_width wrap w = mkOutcome (Raise ValueError) w [].
Proof.
  intros Hw. unfold print_task_row.
  destruct (Z.ltb_spec wrap 0) as [_|?]; [|lia].
  reflexivity.
Qed.

Lemma print_task_row_too_large label vals label_width wrap w :
  (sys_maxsize < wrap)%Z ->
  print_task_row label vals label_width wrap w = mkOutcome (Raise ValueError) w [].
Proof.
  intros Hw. unfold print_task_row.
  destruct (Z.ltb_spec sys_maxsize wrap) as [_|?]; [|lia].
  rewrite orb_true_r. reflexivity.
Qed.

Lemma string_app_empty_r (s : string) : s +:+ "" = s.
Proof.
  induction s as [|a s IH]; [reflexivity|].
  change (String a (s +:+ "") = String a s). by rewrite IH.
Qed.

Lemma chunk_lines_lookup label_width label chunks i c :
  chunks !! i = Some c ->
  chunk_lines label_width label chunks !! i =
    Some (chunk_line label_width (if decide (i = 0) then label else "") c).
Proof.
  destruct chunks as [|c0 cs]; [done|].
  destruct i as [|i]; simpl.
  - by intros [= ->].
  - intros H. by rewrite list_lookup_fmap, H.
Qed.

Lemma length_chunk_lines label_width label chunks :
  length (chunk_lines label_width label chunks) = length chunks.
Proof. destruct chunks; simpl; [reflexivity | by rewrite length_map]. Qed.

Lemma task_column_width_run tasks w :
  tasks <> [] -> task_column_width tasks w = mkOutcome (Ret (twidth_of tasks)) w [].
Proof. destruct tasks; [done | reflexivity]. Qed.

Lemma read_file_run {A} (files : World -> gmap string A) path a w :
  files w !! path = Some a -> read_file files path w = mkOutcome (Ret a) w [].
Proof.
  intros H. unfold read_file.
  erewrite bind_run by reflexivity. simpl. rewrite H. reflexivity.
Qed.

(** A group whose two files can be read and whose catalog is not empty:
    the header is printed, then the rows; the closing blank line only if no
    row raised. *)
Lemma main_group_run path work_path wrap records group_id df tasks w :
  fs_csv w !! Path_div path (group_id +:+ ".csv") = Some df ->
  fs_tasks w !! Path_div path (group_id +:+ ".yaml") = Some tasks ->
  tasks <> [] -> (0 <= wrap <= sys_maxsize)%Z ->
  let rows := foldM (main_row work_path tasks (twidth_of tasks) (subtask_keys tasks) wrap)
                    (zip (seq 0 (length df)) df) records w in
  main_group path work_path wrap records group_id w =
  mkOutcome (res rows) w
    (header_lines tasks wrap ++ out rows
       ++ match res rows with Ret _ => [""] | Raise _ => [] end).
Proof.
  intros Hdf Htasks Hne Hwrap rows. unfold main_group.
  erewrite bind_run by (by apply read_file_run).
  erewrite bind_run by (by apply read_file_run).
  erewrite bind_run by (by apply task_column_width_run).
  erewrite bind_run by apply print_long_row_guide_run.
  erewrite bind_run by (by apply print_task_row_run).
  assert (Hw : wld rows = w).
  { apply read_only_foldM. intros. apply read_only_main_row. }
  match goal with
  | |- context [bind ?m ?k w] =>
      assert (Hlast : bind m k w =
                mkOutcome (res rows) w
                  (out rows ++ match res rows with Ret _ => [""] | Raise _ => [] end))
  end.
  { unfold bind at 1. fold rows.
    destruct (res rows) as [r|e] eqn:E; rewrite Hw.
    - erewrite bind_run by apply print_run. reflexivity.
    - by rewrite app_nil_r. }
  rewrite Hlast. unfold header_lines. cbn [res wld out app].
  by rewrite <- !app_assoc.
Qed.

(** C6: with a wrap width [W >= 1] that the chunking accepts (at most
    [sys.maxsize]), a row of [N] cells is printed in
    [ceil(N/W)] chunks of at most [W] cells; only the first chunk carries the
    label, the others start with blanks; and when [N > W] a guide line of
    [label_width + (STATUS_WIDTH + 1) * W] characters follows the row, just
    as one precedes the header of the group. *)
Theorem print_task_row_wrapped
    (label : string) (vals : list string) (label_width : nat) (wrap : Z) (w : World) :
  (1 <= wrap <= sys_maxsize)%Z ->
  let N := length vals in
  let W := Z.to_nat wrap in
  let chunks := chunked vals W in
  let lines := chunk_lines label_width label chunks in
  print_task_row label vals label_width wrap w
    = mkOutcome (Ret tt) w (lines ++ guide_lines label_width N wrap "-") /\
  length lines = (N + W - 1) / W /\
  concat chunks = vals /\
  Forall (fun c => 1 <= length c <= W) chunks /\
  (forall i c, chunks !! i = Some c ->
     lines !! i = Some (rjust (if decide (i = 0) then label else "") label_width
                          +:+ join " " (map (fun v => center v STATUS_WIDTH) c))) /\
  rjust "" label_width = spaces label_width /\
  (W < N -> forall char, String.length char = 1 ->
     guide_lines label_width N wrap char
       = [str_repeat char (label_width + (STATUS_WIDTH + 1) * W)] /\
     String.length (str_repeat char (label_width + (STATUS_WIDTH + 1) * W))
       = label_width + (STATUS_WIDTH + 1) * W) /\
  (forall path work_path records group_id df tasks,
     fs_csv w !! Path_div path (group_id +:+ ".csv") = Some df ->
     fs_tasks w !! Path_div path (group_id +:+ ".yaml") = Some tasks ->
     tasks <> [] ->
     exists rest,
       out (main_group path work_path wrap records group_id w)
       = guide_lines (twidth_of tasks) (length (subtask_keys tasks)) wrap "#"
           ++ out (print_task_row TableKey_task (subtask_keys tasks) (twidth_of tasks) wrap w)
           ++ rest).
Proof.
  intros Hwrap N W chunks lines.
  assert (HW : 1 <= W) by (unfold W; lia).
  split; [apply print_task_row_run; lia|].
  split.
  { unfold lines. rewrite length_chunk_lines. unfold chunks, chunked.
    by apply chunked_go_length. }
  split; [by apply chunked_go_concat|].
  split; [by apply chunked_go_sizes|].
  split; [intros i c Hc; by apply chunk_lines_lookup|].
  split.
  { unfold rjust. cbn [String.length]. rewrite Nat.sub_0_r.
    apply string_app_empty_r. }
  split.
  { intros Hlt char Hchar. unfold guide_lines, guide_width.
    destruct (Z.ltb_spec wrap (Z.of_nat N)) as [_|?]; [|lia].
    replace (Z.to_nat (Z.of_nat label_width + (Z.of_nat STATUS_WIDTH + 1) * wrap))
      with (label_width + (STATUS_WIDTH + 1) * W) by (unfold W; nia).
    split; [reflexivity|]. rewrite length_str_repeat, Hchar. lia. }
  intros path work_path records group_id df tasks Hdf Htasks Hne.
  rewrite (main_group_run _ _ _ _ _ _ _ _ Hdf Htasks Hne) by lia.
  rewrite print_task_row_run by lia. simpl.
  eexists. unfold header_lines. rewrite <- !app_assoc. reflexivity.
Qed.

(** ** Passes that end normally *)

Lemma bind_inv {A B} (m : M A) (k : A -> M B) w b :
  read_only m -> res (bind m k w) = Ret b ->
  exists a, res (m w) = Ret a /\ res (k a w) = Ret b /\
            out (bind m k w) = out (m w) ++ out (k a w).
Proof.
  intros Hm. unfold bind. rewrite Hm.
  destruct (res (m w)) as [a|e]; simpl; [|discriminate].
  intros H. exists a. done.
Qed.

Lemma mapM_inv {A B} (f : A -> M B) xs w ys :
  (forall x, read_only (f x)) -> res (mapM f xs w) = Ret ys ->
  Forall2 (fun x y => res (f x w) = Ret y) xs ys.
Proof.
  intros Hf. revert ys. induction xs as [|x xs IH]; intros ys; simpl.
  - intros [= <-]. constructor.
  - intros H. apply bind_inv in H as (y & Hy & H & _); [|apply Hf].
    apply bind_inv in H as (ys' & Hys & H & _); [|by apply read_only_mapM].
    injection H as <-. constructor; [done | by apply IH].
Qed.

Lemma foldM_inv {A B} (body : B -> A -> M B) xs acc w r :
  (forall acc x, read_only (body acc x)) -> res (foldM body xs acc w) = Ret r ->
  forall x, x ∈ xs -> exists acc' r', res (body acc' x w) = Ret r'.
Proof.
  intros Hb. revert acc. induction xs as [|x0 xs IH]; intros acc H x Hx.
  - by apply not_elem_of_nil in Hx.
  - simpl in H. apply bind_inv in H as (acc' & H0 & H & _); [|apply Hb].
    apply elem_of_cons in Hx as [->|Hx]; [by eauto | by eapply IH].
Qed.

Lemma foldM_inv_acc {A R} (body : list R -> A -> M (list R)) (g : A -> list R) xs acc w r :
  (forall acc x, read_only (body acc x)) ->
  (forall acc x r, res (body acc x w) = Ret r -> r = acc ++ g x) ->
  res (foldM body xs acc w) = Ret r ->
  r = acc ++ concat (map g xs).
Proof.
  intros Hb Hg. revert acc. induction xs as [|x xs IH]; intros acc H; simpl in *.
  - injection H as <-. by rewrite app_nil_r.
  - apply bind_inv in H as (acc' & H0 & H & _); [|apply Hb].
    apply IH in H. apply Hg in H0. subst. by rewrite app_assoc.
Qed.

Lemma cell_records_run w task_name skey cell recs :
  res (bind (as_path cell) (fun spath =>
         bind (log_paths_with_statuses spath [OK]) (fun d =>
           ret (map (fun ps : string * Status => (task_name, skey, ps.1, ps.2)) d))) w)
    = Ret recs ->
  recs = cell_records w task_name skey cell.
Proof.
  destruct cell as [[|spath]|]; [discriminate | | discriminate].
  unfold as_path.
  erewrite bind_run by apply ret_run.
  erewrite bind_run by apply log_paths_with_statuses_run.
  simpl. by intros [= <-].
Qed.

(** What a row that is rendered without an exception has gone through. *)
Lemma main_row_inv work_path tasks twidth skeys wrap records i row w r :
  res (main_row work_path tasks twidth skeys wrap records (i, row) w) = Ret r ->
  exists task,
    tasks !! i = Some task /\
    dict_get row TableKey_task = Some (Str (Task.name task)) /\
    (forall skey, skey ∈ skeys -> exists spath s,
        dict_get row skey = Some (Str spath) /\
        status_of_log_stats (log_stats_at w (Path_div work_path spath)) small_thresh_default
          = Ret s) /\
    r = records ++ row_records w tasks skeys (i, row).
Proof.
  unfold main_row. cbn [fst snd]. intros H.
  apply bind_inv in H as (task & Htask & H & _); [|ro].
  destruct (tasks !! i) as [task'|] eqn:Ei; [|discriminate]. injection Htask as ->.
  apply bind_inv in H as (c & Hc & H & _); [|ro].
  destruct (dict_get row TableKey_task) as [c'|] eqn:Ec; [|discriminate]. injection Hc as ->.
  apply bind_inv in H as ([] & Hassert & H & _); [|ro].
  unfold assert in Hassert. case_bool_decide as Hname; [|discriminate]. subst c.
  apply bind_inv in H as (abs_paths & Habs & H & _); [|ro].
  apply bind_inv in H as (stats & Hstats & H & _); [|ro].
  apply bind_inv in H as ([] & _ & H & _); [|ro].
  apply bind_inv in H as (new_records & Hnew & H & _); [|ro].
  injection H as <-.
  exists task. split; [done|]. split; [done|].
  apply mapM_inv in Habs; [|intros; ro].
  apply mapM_inv in Hstats; [|intros; ro].
  apply mapM_inv in Hnew; [|intros; ro].
  split.
  - intros skey Hskey.
    apply list_elem_of_lookup in Hskey as [j Hj].
    assert (Hcell : map (dict_get row) skeys !! j = Some (dict_get row skey))
      by (by rewrite list_lookup_fmap, Hj).
    destruct (Forall2_lookup_l _ _ _ _ _ Habs Hcell) as (p & Hp & Hrun).
    destruct (Forall2_lookup_l _ _ _ _ _ Hstats Hp) as (cs & _ & Hs).
    destruct (dict_get row skey) as [[|spath]|]; try discriminate.
    erewrite bind_run in Hrun by apply ret_run. simpl in Hrun. injection Hrun as <-.
    unfold bind in Hs. rewrite parse_subtask_status_run in Hs. cbn [res wld out] in Hs.
    destruct (status_of_log_stats _ _) as [s|e] eqn:Es; [|discriminate].
    by exists spath, s.
  - f_equal. unfold row_records. cbn [fst snd]. rewrite Ei.
    f_equal. clear -Hnew. revert new_records Hnew.
    induction skeys as [|skey skeys IH]; intros new_records Hnew; simpl in *.
    + by inversion Hnew.
    + inversion Hnew as [|? y ? ys Hy Hys]; subst. simpl in Hy.
      apply cell_records_run in Hy. subst y. f_equal. by apply IH.
Qed.

Lemma read_file_inv {A} (files : World -> gmap string A) path a w :
  res (read_file files path w) = Ret a -> files w !! path = Some a.
Proof.
  unfold read_file. intros H.
  apply bind_inv in H as (o & Ho & H & _); [|ro].
  simpl in Ho. injection Ho as <-.
  destruct (files w !! path); [|discriminate]. simpl in H. congruence.
Qed.

Lemma elem_of_enumerate {A} (l : list A) i x :
  l !! i = Some x -> (i, x) ∈ zip (seq 0 (length l)) l.
Proof.
  intros H. apply list_elem_of_lookup. exists i.
  apply lookup_zip_with_Some. exists i, x. split; [done|]. split; [|done].
  apply lookup_seq. split; [done|]. by eapply lookup_lt_Some.
Qed.

(** What a group that is rendered without an exception has gone through. *)
Lemma main_group_inv path work_path wrap records group_id w r :
  res (main_group path work_path wrap records group_id w) = Ret r ->
  exists df tasks,
    fs_csv w !! Path_div path (group_id +:+ ".csv") = Some df /\
    fs_tasks w !! Path_div path (group_id +:+ ".yaml") = Some tasks /\
    tasks <> [] /\
    (forall i row, df !! i = Some row ->
       exists task,
         tasks !! i = Some task /\
         dict_get row TableKey_task = Some (Str (Task.name task)) /\
         forall skey, skey ∈ subtask_keys tasks -> exists spath s,
           dict_get row skey = Some (Str spath) /\
           status_of_log_stats (log_stats_at w (Path_div work_path spath))
             small_thresh_default = Ret s) /\
    r = records ++ group_records w path group_id.
Proof.
  unfold main_group. intros H.
  apply bind_inv in H as (df & Hdf & H & _); [|ro]. apply read_file_inv in Hdf.
  apply bind_inv in H as (tasks & Htasks & H & _); [|ro]. apply read_file_inv in Htasks.
  apply bind_inv in H as (twidth & Htw & H & _); [|unfold task_column_width; ro].
  assert (Hne : tasks <> []) by (intros ->; discriminate).
  apply bind_inv in H as ([] & _ & H & _); [|ro].
  apply bind_inv in H as ([] & _ & H & _); [|ro].
  apply bind_inv in H as (recs & Hrows & H & _); [|ro].
  apply bind_inv in H as ([] & _ & H & _); [|ro].
  injection H as <-.
  exists df, tasks. repeat (split; [done|]). split.
  - intros i row Hrow.
    destruct (foldM_inv (main_row work_path tasks twidth (subtask_keys tasks) wrap)
                _ _ _ _ ltac:(intros; ro) Hrows (i, row)
                (elem_of_enumerate _ _ _ Hrow)) as (acc & r' & Hr').
    apply main_row_inv in Hr' as (task & ? & ? & ? & _). by exists task.
  - unfold group_records. rewrite Hdf, Htasks.
    eapply foldM_inv_acc; [| |exact Hrows].
    + intros; ro.
    + intros acc [i row] r' Hr'. by apply main_row_inv in Hr' as (_ & _ & _ & _ & ->).
Qed.

Lemma py_max_run x xs w : py_max (x :: xs) w = mkOutcome (Ret (fold_left Nat.max xs x)) w [].
Proof. reflexivity. Qed.

Lemma foldM_print_lines {A} (line : A -> string) xs w :
  foldM (fun _ x => print (line x)) xs tt w = mkOutcome (Ret tt) w (map line xs).
Proof.
  induction xs as [|x xs IH]; simpl; [reflexivity|].
  erewrite bind_run by apply print_run. rewrite IH. reflexivity.
Qed.

Lemma print_non_okay_log_records_run work_path records w :
  print_non_okay_log_records work_path records w
  = mkOutcome (Ret tt) w (listing_lines work_path records).
Proof.
  unfold print_non_okay_log_records, listing_lines.
  destruct records as [|r records].
  - erewrite bind_run by apply ret_run. reflexivity.
  - set (rs := r :: records).
    erewrite bind_run.
    2:{ erewrite bind_run by apply print_run.
        erewrite bind_run by apply py_max_run.
        erewrite bind_run by apply py_max_run.
        erewrite bind_run by apply py_max_run.
        rewrite foldM_print_lines. reflexivity. }
    reflexivity.
Qed.

(** What a pass that ends normally has gone through, and what it printed. *)
Lemma main_inv path wrap w :
  res (main path wrap w) = Ret tt ->
  exists info tables,
    path ∈ fs_paths w /\
    fs_info w !! Path_div path INFO_FILE = Some info /\
    (forall group_id, group_id ∈ group_ids info ->
       exists df tasks,
         fs_csv w !! Path_div path (group_id +:+ ".csv") = Some df /\
         fs_tasks w !! Path_div path (group_id +:+ ".yaml") = Some tasks /\
         forall i row, df !! i = Some row ->
           exists task,
             tasks !! i = Some task /\
             dict_get row TableKey_task = Some (Str (Task.name task)) /\
             forall skey, skey ∈ subtask_keys tasks -> exists spath s,
               dict_get row skey = Some (Str spath) /\
               status_of_log_stats (log_stats_at w (Path_div (work_path info) spath))
                 small_thresh_default = Ret s) /\
    out (main path wrap w) = tables ++ listing_lines (work_path info) (run_records w path).
Proof.
  intros H. pose proof H as H0. unfold main in H0.
  apply bind_inv in H0 as (ex & Hex & H0 & Ho1); [|ro].
  apply bind_inv in H0 as ([] & Hassert & H0 & Ho2); [|ro].
  apply bind_inv in H0 as (info & Hinfo & H0 & Ho3); [|ro].
  apply bind_inv in H0 as (recs & Hrecs & H0 & Ho4); [|ro].
  apply read_file_inv in Hinfo.
  simpl in Hex. injection Hex as <-.
  unfold assert in Hassert. case_bool_decide as Hpath; [|discriminate].
  exists info, (out (foldM (main_group path (work_path info) wrap) (group_ids info) [] w)).
  split; [done|]. split; [done|]. split.
  - intros group_id Hg.
    destruct (foldM_inv (main_group path (work_path info) wrap)
                _ _ _ _ ltac:(intros; ro) Hrecs group_id Hg) as (acc & r' & Hr').
    apply main_group_inv in Hr' as (df & tasks & ? & ? & _ & ? & _).
    by exists df, tasks.
  - assert (Hrun : recs = run_records w path).
    { unfold run_records. rewrite Hinfo.
      change (recs = [] ++ concat (map (group_records w path) (group_ids info))).
      eapply foldM_inv_acc; [| |exact Hrecs].
      - intros; ro.
      - intros acc g r' Hr'. by apply main_group_inv in Hr' as (_ & _ & _ & _ & _ & _ & ->). }
    unfold main. rewrite Ho1, Ho2, Ho3, Ho4.
    rewrite print_non_okay_log_records_run, Hrun.
    rewrite (read_file_run _ _ _ _ Hinfo). reflexivity.
Qed.

(** C2: among mixed logs without RUNNING and without ERROR the result is
    WARNING exactly when the set of statuses is {OK, WARNING}; for any other
    set the assertion fails, and a pass over a matrix that has such a cell
    ends with an exception instead of a report. *)
Theorem parse_subtask_status_warning_or_failure (w : World) (path : string) :
  let log_stats := log_stats_at w path in
  let small := small_thresh_default in
  mixed log_stats -> RUNNING ∉ log_stats -> ERROR ∉ log_stats ->
  (parse_subtask_status path small w = mkOutcome (Ret WARNING) w []
     <-> (list_to_set log_stats : gset Status) = {[OK; WARNING]}) /\
  ((list_to_set log_stats : gset Status) <> {[OK; WARNING]} ->
     parse_subtask_status path small w
       = mkOutcome (Raise (AssertionError OkWarningOnly)) w []) /\
  ((list_to_set log_stats : gset Status) <> {[OK; WARNING]} ->
     forall root wrap info group_id df tasks i row skey spath,
       fs_info w !! Path_div root INFO_FILE = Some info ->
       group_id ∈ group_ids info ->
       fs_csv w !! Path_div root (group_id +:+ ".csv") = Some df ->
       fs_tasks w !! Path_div root (group_id +:+ ".yaml") = Some tasks ->
       df !! i = Some row ->
       skey ∈ subtask_keys tasks ->
       dict_get row skey = Some (Str spath) ->
       Path_div (work_path info) spath = path ->
       exists e, res (main root wrap w) = Raise e).
Proof.
  intros log_stats small Hmix Hrun Herr.
  assert (Hk : error_count_of log_stats = 0).
  { destruct (error_count_of log_stats) eqn:E; [done|].
    exfalso. apply Herr, error_count_elem. lia. }
  assert (Hres : status_of_log_stats log_stats small =
                 if decide ((list_to_set log_stats : gset Status) = {[OK; WARNING]})
                 then Ret WARNING else Raise (AssertionError OkWarningOnly)).
  { rewrite (status_of_log_stats_mixed _ _ Hmix).
    rewrite decide_False by done.
    rewrite (guard_false 1) by (intros [? _]; lia).
    rewrite (guard_false 2) by (intros [? _]; lia).
    by rewrite decide_False. }
  split; [|split].
  - rewrite parse_subtask_status_run. fold log_stats. rewrite Hres.
    destruct (decide _) as [Heq|Hne]; split; done.
  - intros Hne. rewrite parse_subtask_status_run. fold log_stats. rewrite Hres.
    by rewrite decide_False.
  - intros Hne root wrap info group_id df tasks i row skey spath
      Hinfo Hg Hdf Htasks Hrow Hskey Hcell Hpath.
    destruct (res (main root wrap w)) as [[]|e] eqn:E; [|by exists e].
    exfalso. apply main_inv in E as (info' & _ & _ & Hinfo' & Hcells & _).
    rewrite Hinfo in Hinfo'. injection Hinfo' as <-.
    destruct (Hcells group_id Hg) as (df' & tasks' & Hdf' & Htasks' & Hrows).
    rewrite Hdf in Hdf'. rewrite Htasks in Htasks'.
    injection Hdf' as <-. injection Htasks' as <-.
    destruct (Hrows i row Hrow) as (task & _ & _ & Hkeys).
    destruct (Hkeys skey Hskey) as (spath' & s & Hcell' & Hs).
    rewrite Hcell in Hcell'. injection Hcell' as <-.
    rewrite Hpath in Hs. fold log_stats small in Hs. rewrite Hres in Hs.
    by rewrite decide_False in Hs.
Qed.

Lemma elem_of_concat {A} (x : A) (ls : list (list A)) :
  x ∈ concat ls <-> exists l, l ∈ ls /\ x ∈ l.
Proof.
  induction ls as [|l ls IH]; simpl.
  - split; [by intros ?%not_elem_of_nil | by intros (? & ?%not_elem_of_nil & _)].
  - rewrite elem_of_app, IH. split.
    + intros [H|(l' & Hl' & H)]; [exists l; split; [left | done]|].
      exists l'. split; [by right | done].
    + intros (l' & [->|Hl']%elem_of_cons & H); [by left | right; by exists l'].
Qed.

Lemma cell_records_not_ok w task_name skey cell r :
  r ∈ cell_records w task_name skey cell -> r.2 <> OK.
Proof.
  destruct cell as [[|spath]|]; simpl; try (by intros ?%not_elem_of_nil).
  intros (ps & -> & Hps)%list_elem_of_fmap. simpl.
  apply list_elem_of_filter in Hps as [Hps _].
  intros Heq. apply Hps. rewrite Heq. left.
Qed.

Lemma run_records_not_ok w path r : r ∈ run_records w path -> r.2 <> OK.
Proof.
  unfold run_records. destruct (fs_info w !! _) as [info|]; [|by intros ?%not_elem_of_nil].
  intros (l & (g & -> & _)%list_elem_of_fmap & Hr)%elem_of_concat.
  unfold group_records in Hr.
  destruct (fs_csv w !! _) as [df|]; [|by apply not_elem_of_nil in Hr].
  destruct (fs_tasks w !! _) as [tasks|]; [|by apply not_elem_of_nil in Hr].
  apply elem_of_concat in Hr as (l & (item & -> & _)%list_elem_of_fmap & Hr).
  unfold row_records in Hr.
  destruct (tasks !! item.1) as [task|]; [|by apply not_elem_of_nil in Hr].
  apply elem_of_concat in Hr as (l & (skey & -> & _)%list_elem_of_fmap & Hr).
  by eapply cell_records_not_ok.
Qed.

Lemma fold_left_max_ge xs x : x <= fold_left Nat.max xs x.
Proof.
  revert x. induction xs as [|y xs IH]; intros x; simpl; [lia|].
  etrans; [|apply IH]. lia.
Qed.

Lemma fold_left_max_bound xs x y : y ∈ xs -> y <= fold_left Nat.max xs x.
Proof.
  revert x. induction xs as [|z xs IH]; intros x; simpl.
  - by intros ?%not_elem_of_nil.
  - intros [->|H]%elem_of_cons; [|by apply IH].
    etrans; [|apply fold_left_max_ge]. lia.
Qed.

Lemma fold_left_max_attained xs x :
  fold_left Nat.max xs x = x \/ fold_left Nat.max xs x ∈ xs.
Proof.
  revert x. induction xs as [|z xs IH]; intros x; simpl; [by left|].
  destruct (IH (x `max` z)) as [H|H].
  - rewrite H. destruct (Nat.max_spec x z) as [[_ ->]|[_ ->]]; [right; left | by left].
  - right. by right.
Qed.

Lemma max_len_bound field records r :
  r ∈ records -> String.length (field r) <= max_len field records.
Proof.
  unfold max_len. destruct records as [|r0 records]; [by intros ?%not_elem_of_nil|].
  simpl. intros [->|H]%elem_of_cons; [apply fold_left_max_ge|].
  apply fold_left_max_bound. by apply (list_elem_of_fmap_2 (fun r => String.length (field r))).
Qed.

Lemma max_len_attained field records :
  records <> [] -> exists r, r ∈ records /\ String.length (field r) = max_len field records.
Proof.
  unfold max_len. destruct records as [|r0 records]; [done|]. intros _. simpl.
  destruct (fold_left_max_attained (map (fun r => String.length (field r)) records)
              (String.length (field r0))) as [H|H].
  - exists r0. split; [left | done].
  - apply (list_elem_of_fmap (fun r => String.length (field r))) in H as (r & Hr & Hin).
    exists r. split; [by right | done].
Qed.

Lemma length_ljust s width :
  String.length s <= width -> String.length (ljust s width) = width.
Proof. intros H. unfold ljust. rewrite length_string_app, length_spaces. lia. Qed.

Lemma elem_of_enumerate_inv {A} (l : list A) i x :
  (i, x) ∈ zip (seq 0 (length l)) l -> l !! i = Some x.
Proof.
  intros (j & Hj)%list_elem_of_lookup.
  apply lookup_zip_with_Some in Hj as (i' & x' & [= -> ->] & Hseq & Hl).
  apply lookup_seq in Hseq as [-> _]. done.
Qed.

(** The records of a run are the logs that are not OK among the entries of
    the directories named by the cells of the matrices, with the task and
    the key of the cell. *)
Lemma run_records_elem w path info r :
  fs_info w !! Path_div path INFO_FILE = Some info ->
  r ∈ run_records w path <->
  exists group_id df tasks i row task skey spath,
    group_id ∈ group_ids info /\
    fs_csv w !! Path_div path (group_id +:+ ".csv") = Some df /\
    fs_tasks w !! Path_div path (group_id +:+ ".yaml") = Some tasks /\
    df !! i = Some row /\ tasks !! i = Some task /\
    skey ∈ subtask_keys tasks /\ dict_get row skey = Some (Str spath) /\
    r.1.1.1 = Task.name task /\ r.1.1.2 = skey /\
    (r.1.2, r.2) ∈ log_dct_at w spath /\ r.2 <> OK.
Proof.
  intros Hinfo. unfold run_records. rewrite Hinfo. split.
  - intros (l & (g & -> & Hg)%list_elem_of_fmap & Hr)%elem_of_concat.
    unfold group_records in Hr.
    destruct (fs_csv w !! _) as [df|] eqn:Edf; [|by apply not_elem_of_nil in Hr].
    destruct (fs_tasks w !! _) as [tasks|] eqn:Etasks; [|by apply not_elem_of_nil in Hr].
    apply elem_of_concat in Hr as (l & ([i row] & -> & Hitem)%list_elem_of_fmap & Hr).
    apply elem_of_enumerate_inv in Hitem.
    unfold row_records in Hr. cbn [fst snd] in Hr.
    destruct (tasks !! i) as [task|] eqn:Etask; [|by apply not_elem_of_nil in Hr].
    apply elem_of_concat in Hr as (l & (skey & -> & Hskey)%list_elem_of_fmap & Hr).
    destruct (dict_get row skey) as [[|spath]|] eqn:Ecell;
      try (by apply not_elem_of_nil in Hr).
    simpl in Hr. apply list_elem_of_fmap in Hr as ([p s] & -> & Hps).
    apply list_elem_of_filter in Hps as [Hnok Hps]. simpl in *.
    exists g, df, tasks, i, row, task, skey, spath.
    repeat (split; [done|]). intros ->. apply Hnok. left.
  - intros (g & df & tasks & i & row & task & skey & spath &
            Hg & Hdf & Htasks & Hrow & Htask & Hskey & Hcell & Hn & Hk & Hlog & Hnok).
    apply elem_of_concat. exists (group_records w path g).
    split; [by apply list_elem_of_fmap_2|].
    unfold group_records. rewrite Hdf, Htasks.
    apply elem_of_concat. exists (row_records w tasks (subtask_keys tasks) (i, row)).
    split; [apply list_elem_of_fmap_2; by apply elem_of_enumerate|].
    unfold row_records. cbn [fst snd]. rewrite Htask.
    apply elem_of_concat.
    exists (cell_records w (Task.name task) skey (dict_get row skey)).
    split; [by apply (list_elem_of_fmap_2
                        (fun skey => cell_records w (Task.name task) skey (dict_get row skey)))|].
    rewrite Hcell. simpl.
    apply list_elem_of_fmap. exists (r.1.2, r.2). split.
    + destruct r as [[[a b] c] d]. simpl in *. by subst.
    + apply list_elem_of_filter. split; [|done].
      simpl. intros [?|?%not_elem_of_nil]%elem_of_cons; done.
Qed.

(** X24: what the code prints at the end of a pass that ends normally:
    nothing but a blank line when it has collected no record; otherwise a
    header line naming the work path, one line per collected record, and a
    blank line.  The records are the logs that are not OK among the entries
    that [log_paths_with_statuses] finds under each cell's path as it is
    written in the matrix (line 65 scans the cell, not
    [Path(work_path) / cell] as line 56 does for the table).  The task
    name, the key and the log path are padded on the right to the longest
    of their column; the status comes last, as [colored_status_string]
    gives it. *)
Theorem main_lists_non_ok_logs (path : string) (wrap : Z) (w : World) :
  res (main path wrap w) = Ret tt ->
  exists info tables,
    fs_info w !! Path_div path INFO_FILE = Some info /\
    let records := run_records w path in
    let twidth := max_len (fun r => r.1.1.1) records in
    let swidth := max_len (fun r => r.1.1.2) records in
    let pwidth := max_len (fun r => r.1.2) records in
    out (main path wrap w) = tables ++ listing_lines (work_path info) records /\
    (records = [] -> listing_lines (work_path info) records = [""]) /\
    (records <> [] ->
       listing_lines (work_path info) records
       = ("Non-OK log files in " +:+ work_path info +:+ ":")
           :: map (record_line twidth swidth pwidth) records ++ [""]) /\
    (forall r, r ∈ records <->
       exists group_id df tasks i row task skey spath,
         group_id ∈ group_ids info /\
         fs_csv w !! Path_div path (group_id +:+ ".csv") = Some df /\
         fs_tasks w !! Path_div path (group_id +:+ ".yaml") = Some tasks /\
         df !! i = Some row /\ tasks !! i = Some task /\
         skey ∈ subtask_keys tasks /\ dict_get row skey = Some (Str spath) /\
         r.1.1.1 = Task.name task /\ r.1.1.2 = skey /\
         (r.1.2, r.2) ∈ log_dct_at w spath /\ r.2 <> OK) /\
    (forall task_name skey log_path stat,
       (task_name, skey, log_path, stat) ∈ records ->
       record_line twidth swidth pwidth (task_name, skey, log_path, stat)
       = ljust task_name twidth +:+ " " +:+ ljust skey swidth +:+ " "
           +:+ ljust log_path pwidth +:+ " " +:+ colored_status_string stat /\
       String.length (ljust task_name twidth) = twidth /\
       String.length (ljust skey swidth) = swidth /\
       String.length (ljust log_path pwidth) = pwidth) /\
    (records <> [] ->
       (exists r, r ∈ records /\ String.length r.1.1.1 = twidth) /\
       (exists r, r ∈ records /\ String.length r.1.1.2 = swidth) /\
       (exists r, r ∈ records /\ String.length r.1.2 = pwidth)).
Proof.
  intros H. apply main_inv in H as (info & tables & _ & Hinfo & _ & Hout).
  exists info, tables. split; [done|]. intros records twidth swidth pwidth.
  split; [done|]. split; [by intros ->|]. split.
  { intros Hne. unfold listing_lines. fold twidth swidth pwidth.
    by destruct records. }
  split; [intros r; by apply run_records_elem|]. split.
  - intros task_name skey log_path stat Hr. split; [reflexivity|].
    split; [|split]; apply length_ljust.
    + apply (max_len_bound (fun r => r.1.1.1) _ _ Hr).
    + apply (max_len_bound (fun r => r.1.1.2) _ _ Hr).
    + apply (max_len_bound (fun r => r.1.2) _ _ Hr).
  - intros Hne. repeat split; by apply max_len_attained.
Qed.

Lemma foldM_app_raise {A B} (body : B -> A -> M B) xs y zs acc acc' e w :
  (forall acc x, read_only (body acc x)) ->
  res (foldM body xs acc w) = Ret acc' ->
  res (body acc' y w) = Raise e ->
  foldM body (xs ++ y :: zs) acc w
  = mkOutcome (Raise e) w (out (foldM body xs acc w) ++ out (body acc' y w)).
Proof.
  intros Hb. revert acc. induction xs as [|x xs IH]; intros acc Hxs Hy; simpl in *.
  - injection Hxs as ->. unfold bind. rewrite Hy, Hb. reflexivity.
  - apply bind_inv in Hxs as (acc1 & H1 & Hxs & Hout); [|apply Hb].
    rewrite Hout. unfold bind at 1. rewrite H1, Hb.
    rewrite (IH acc1 Hxs Hy). simpl. by rewrite app_assoc.
Qed.

Lemma enumerate_app {A} (pre : list A) row post :
  zip (seq 0 (length (pre ++ row :: post))) (pre ++ row :: post)
  = zip (seq 0 (length pre)) pre
      ++ (length pre, row) :: zip (seq (S (length pre)) (length post)) post.
Proof.
  rewrite length_app. simpl. rewrite seq_app. simpl.
  rewrite zip_with_app by (by rewrite length_seq). reflexivity.
Qed.

Lemma main_row_mismatch work_path tasks twidth skeys wrap records i row task c w :
  tasks !! i = Some task ->
  dict_get row TableKey_task = Some c -> c <> Str (Task.name task) ->
  main_row work_path tasks twidth skeys wrap records (i, row) w
  = mkOutcome (Raise (AssertionError (RowMatchesTask row (Task.name task)))) w [].
Proof.
  intros Htask Hc Hne. unfold main_row. cbn [fst snd]. rewrite Htask, Hc.
  erewrite bind_run by apply ret_run.
  erewrite bind_run by apply ret_run.
  rewrite bool_decide_eq_false_2 by done. reflexivity.
Qed.

(** C7 (as the code has it): the name in matrix row [i] is compared with the
    name of the catalog's task [i] by an assertion in the loop that renders
    the rows, just before row [i] is rendered.  At the first row that does
    not match, the group ends with an [AssertionError] that carries the row
    and the task's name; the header of the group and the rows before it have
    been printed by then, and a pass over that group does not end
    normally. *)
Theorem integrity_check_in_render_loop
    (path work_path : string) (wrap : Z) (records : list LogRecord) (group_id : string)
    (w : World) (tasks : list Task.t) (pre : list Row) (row : Row) (post : list Row)
    (task : Task.t) (c : Cell) (records' : list LogRecord) :
  let body := main_row work_path tasks (twidth_of tasks) (subtask_keys tasks) wrap in
  let before := foldM body (zip (seq 0 (length pre)) pre) records w in
  fs_csv w !! Path_div path (group_id +:+ ".csv") = Some (pre ++ row :: post) ->
  fs_tasks w !! Path_div path (group_id +:+ ".yaml") = Some tasks ->
  (0 <= wrap <= sys_maxsize)%Z ->
  res before = Ret records' ->
  tasks !! length pre = Some task ->
  dict_get row TableKey_task = Some c ->
  c <> Str (Task.name task) ->
  main_group path work_path wrap records group_id w
    = mkOutcome (Raise (AssertionError (RowMatchesTask row (Task.name task)))) w
        (header_lines tasks wrap ++ out before) /\
  (forall info, fs_info w !! Path_div path INFO_FILE = Some info ->
     group_id ∈ group_ids info ->
     exists e, res (main path wrap w) = Raise e).
Proof.
  intros body before Hdf Htasks Hwrap Hbefore Htask Hc Hne.
  assert (Htne : tasks <> []) by (intros ->; done).
  split.
  - rewrite (main_group_run _ _ _ _ _ _ _ _ Hdf Htasks Htne Hwrap).
    fold body. rewrite enumerate_app.
    assert (Hrow : body records' (length pre, row) w
                   = mkOutcome (Raise (AssertionError (RowMatchesTask row (Task.name task))))
                       w []) by (by eapply main_row_mismatch).
    rewrite (foldM_app_raise body _ _ _ _ records'
               (AssertionError (RowMatchesTask row (Task.name task))));
      [| intros; apply read_only_main_row | exact Hbefore | by rewrite Hrow].
    rewrite Hrow. cbn [res wld out]. fold before. by rewrite !app_nil_r.
  - intros info Hinfo Hg.
    destruct (res (main path wrap w)) as [[]|e] eqn:E; [|by exists e].
    exfalso. apply main_inv in E as (info' & _ & _ & Hinfo' & Hcells & _).
    rewrite Hinfo in Hinfo'. injection Hinfo' as <-.
    destruct (Hcells group_id Hg) as (df' & tasks' & Hdf' & Htasks' & Hrows).
    rewrite Hdf in Hdf'. rewrite Htasks in Htasks'.
    injection Hdf' as <-. injection Htasks' as <-.
    destruct (Hrows (length pre) row) as (task' & Htask' & Hname & _).
    { by apply list_lookup_middle. }
    rewrite Htask in Htask'. injection Htask' as <-.
    rewrite Hc in Hname. by injection Hname as ->.
Qed.

(** Conversely, a pass that ends normally has found every matrix row equal
    in name to the catalog's task of the same index. *)
Lemma main_checks_every_row path wrap w :
  res (main path wrap w) = Ret tt ->
  exists info,
    fs_info w !! Path_div path INFO_FILE = Some info /\
    forall group_id df tasks i row,
      group_id ∈ group_ids info ->
      fs_csv w !! Path_div path (group_id +:+ ".csv") = Some df ->
      fs_tasks w !! Path_div path (group_id +:+ ".yaml") = Some tasks ->
      df !! i = Some row ->
      exists task, tasks !! i = Some task /\
                   dict_get row TableKey_task = Some (Str (Task.name task)).
Proof.
  intros H. apply main_inv in H as (info & _ & _ & Hinfo & Hcells & _).
  exists info. split; [done|].
  intros group_id df tasks i row Hg Hdf Htasks Hrow.
  destruct (Hcells group_id Hg) as (df' & tasks' & Hdf' & Htasks' & Hrows).
  rewrite Hdf in Hdf'. rewrite Htasks in Htasks'.
  injection Hdf' as <-. injection Htasks' as <-.
  destruct (Hrows i row Hrow) as (task & ? & ? & _). by exists task.
Qed.

(** A directory that does not exist, or that has no log file, is TBD. *)
Lemma parse_subtask_status_no_logs path small_thresh w :
  fs_logs w !! path = None \/ fs_logs w !! path = Some [] ->
  parse_subtask_status path small_thresh w = mkOutcome (Ret TBD) w [].
Proof.
  intros H. rewrite parse_subtask_status_run.
  unfold log_stats_at, log_dct_at. by destruct H as [-> | ->].
Qed.

(** A blank cell, or a key that is not a column of the matrix, is not a
    string: a pass over such a matrix does not end normally. *)
Lemma main_blank_cell path wrap w info group_id df tasks i row skey :
  fs_info w !! Path_div path INFO_FILE = Some info ->
  group_id ∈ group_ids info ->
  fs_csv w !! Path_div path (group_id +:+ ".csv") = Some df ->
  fs_tasks w !! Path_div path (group_id +:+ ".yaml") = Some tasks ->
  df !! i = Some row ->
  skey ∈ subtask_keys tasks ->
  dict_get row skey = Some NaN \/ dict_get row skey = None ->
  exists e, res (main path wrap w) = Raise e.
Proof.
  intros Hinfo Hg Hdf Htasks Hrow Hskey Hcell.
  destruct (res (main path wrap w)) as [[]|e] eqn:E; [|by exists e].
  exfalso. apply main_inv in E as (info' & _ & _ & Hinfo' & Hcells & _).
  rewrite Hinfo in Hinfo'. injection Hinfo' as <-.
  destruct (Hcells group_id Hg) as (df' & tasks' & Hdf' & Htasks' & Hrows).
  rewrite Hdf in Hdf'. rewrite Htasks in Htasks'.
  injection Hdf' as <-. injection Htasks' as <-.
  destruct (Hrows i row Hrow) as (task & _ & _ & Hkeys).
  destruct (Hkeys skey Hskey) as (spath & s & Hs & _).
  destruct Hcell as [Hc|Hc]; rewrite Hc in Hs; discriminate.
Qed.

(** C8: a pass leaves the world as it is, so a second pass right after it
    returns the same and prints the same lines; and the status of a subtask
    directory is a function of the entries of the directory and of the
    statuses of these logs, computed without printing or writing. *)
Theorem main_idempotent (path : string) (wrap : Z) (w : World) :
  let first := main path wrap w in
  let second := main path wrap (wld first) in
  (out second = out first /\ res second = res first) /\
  (forall subtask_path small_thresh w1 w2,
     fs_logs w1 !! subtask_path = fs_logs w2 !! subtask_path ->
     (forall log_path, log_path ∈ default [] (fs_logs w1 !! subtask_path) ->
                       fs_status w1 log_path = fs_status w2 log_path) ->
     res (parse_subtask_status subtask_path small_thresh w1)
     = res (parse_subtask_status subtask_path small_thresh w2)) /\
  (forall subtask_path small_thresh w1,
     wld (parse_subtask_status subtask_path small_thresh w1) = w1 /\
     out (parse_subtask_status subtask_path small_thresh w1) = []).
Proof.
  intros first second. split; [|split].
  - unfold second, first. rewrite (read_only_main path wrap w). done.
  - intros subtask_path small_thresh w1 w2 Hdir Hstat.
    rewrite !parse_subtask_status_run. simpl.
    unfold log_stats_at, log_dct_at. rewrite <- Hdir.
    do 4 f_equal. apply map_ext_in. intros p Hp. apply Hstat.
    by apply list_elem_of_In.
  - intros subtask_path small_thresh w1. by rewrite parse_subtask_status_run.
Qed.

(** ** Every list of statuses is the list of some directory *)

Lemma dict_set_fresh {V} (d : list (string * V)) k v :
  k ∉ map fst d -> dict_set d k v = d ++ [(k, v)].
Proof.
  induction d as [|[k' v'] d IH]; simpl; [done|].
  intros Hk. apply not_elem_of_cons in Hk as [Hne Hk].
  rewrite decide_False by done. by rewrite IH.
Qed.

Lemma dict_of_NoDup {V} (kvs : list (string * V)) :
  NoDup (map fst kvs) -> dict_of kvs = kvs.
Proof.
  unfold dict_of.
  assert (H : forall acc, NoDup (map fst (acc ++ kvs)) ->
                fold_left (fun d kv => dict_set d kv.1 kv.2) kvs acc = acc ++ kvs).
  { induction kvs as [|[k v] kvs IH]; intros acc Hnd; simpl.
    - by rewrite app_nil_r.
    - rewrite dict_set_fresh.
      + rewrite IH; rewrite <- app_assoc; [done | exact Hnd].
      + rewrite map_app in Hnd. apply NoDup_app in Hnd as (_ & Hdis & _).
        intros Hk. apply (Hdis k Hk). left. }
  intros Hnd. by apply (H []).
Qed.

Lemma dict_get_NoDup {V} (kvs : list (string * V)) (d : V) :
  NoDup (map fst kvs) ->
  map (fun k => default d (dict_get kvs k)) (map fst kvs) = map snd kvs.
Proof.
  induction kvs as [|[k v] kvs IH]; simpl; [done|].
  intros [Hk Hnd]%NoDup_cons. rewrite decide_True by done. simpl. f_equal.
  rewrite <- (IH Hnd). apply map_ext_in. intros k' Hk'.
  rewrite decide_False; [done|]. intros ->. apply Hk. by apply list_elem_of_In.
Qed.

Lemma length_log_name dir i :
  String.length (dir +:+ "/out" +:+ str_repeat "x" i +:+ ".log")
  = String.length dir + 8 + i.
Proof. rewrite !length_string_app, length_str_repeat. simpl. lia. Qed.

Lemma NoDup_log_names dir n : NoDup (log_names dir n).
Proof.
  unfold log_names. apply (NoDup_fmap_2_strong _ (seq 0 n)); [|apply NoDup_seq].
  intros i j _ _ Heq. apply (f_equal String.length) in Heq.
  rewrite !length_log_name in Heq. lia.
Qed.

Lemma length_log_names dir n : length (log_names dir n) = n.
Proof. unfold log_names. by rewrite length_map, length_seq. Qed.

(** The directory [dir] of [logs_world dir stats] has the statuses [stats],
    in this order: what is proved of the statuses of the directories of all
    worlds is proved of all lists of statuses. *)
Lemma log_stats_at_logs_world dir stats : log_stats_at (logs_world dir stats) dir = stats.
Proof.
  unfold log_stats_at, log_dct_at, logs_world. cbn [fs_logs fs_status].
  rewrite lookup_singleton_eq.
  change (map snd (dict_of (zip (log_names dir (length stats))
            (map (fun p => default TBD (dict_get (dir_logs dir stats) p))
                 (log_names dir (length stats))))) = stats).
  pose proof (NoDup_log_names dir (length stats)) as Hnd.
  pose proof (length_log_names dir (length stats)) as Hlen.
  assert (Hfst : map fst (dir_logs dir stats) = log_names dir (length stats))
    by (apply fst_zip; lia).
  assert (Hsnd : map snd (dir_logs dir stats) = stats)
    by (apply snd_zip; lia).
  assert (Hmap : map (fun p => default TBD (dict_get (dir_logs dir stats) p))
                     (log_names dir (length stats)) = stats).
  { etrans; [|exact Hsnd]. rewrite <- Hfst. apply dict_get_NoDup. by rewrite Hfst. }
  rewrite Hmap. fold (dir_logs dir stats).
  rewrite dict_of_NoDup by (by rewrite Hfst). exact Hsnd.
Qed.

(** The status of a subtask does not depend on the order in which the scan
    of the directory returns the logs. *)
Lemma status_of_log_stats_Permutation log_stats log_stats' small_thresh :
  log_stats ≡ₚ log_stats' ->
  status_of_log_stats log_stats small_thresh = status_of_log_stats log_stats' small_thresh.
Proof.
  intros Hp. unfold status_of_log_stats.
  assert (Hset : (list_to_set log_stats : gset Status) = list_to_set log_stats')
    by (by rewrite Hp).
  assert (Hlen : length log_stats = length log_stats') by (by rewrite Hp).
  assert (Hcnt : length (filter (fun s => s = ERROR) log_stats)
                 = length (filter (fun s => s = ERROR) log_stats')) by (by rewrite Hp).
  destruct log_stats as [|a l] eqn:E, log_stats' as [|a' l'] eqn:E'; try done.
  rewrite <- E, <- E' in *. by rewrite Hset, Hlen, Hcnt.
Qed.

(** ** Cells for which nothing has run *)

Lemma mapM_run {A B} (f : A -> M B) (g : A -> B) xs w :
  (forall x, x ∈ xs -> f x w = mkOutcome (Ret (g x)) w []) ->
  mapM f xs w = mkOutcome (Ret (map g xs)) w [].
Proof.
  induction xs as [|x xs IH]; intros Hf; simpl; [reflexivity|].
  erewrite bind_run by (apply Hf; left).
  erewrite bind_run by (apply IH; intros y Hy; apply Hf; by right).
  reflexivity.
Qed.

(** C4 (as the code has it): for a cell that holds a path, a directory that
    does not exist or that has no log file is TBD; a row of such cells is
    rendered without an exception, with TBD for every key. *)
Theorem logless_cells_are_TBD
    (work_path : string) (tasks : list Task.t) (twidth : nat) (skeys : list string)
    (wrap : Z) (records : list LogRecord) (i : nat) (row : Row) (task : Task.t) (w : World) :
  tasks !! i = Some task ->
  dict_get row TableKey_task = Some (Str (Task.name task)) ->
  (0 <= wrap <= sys_maxsize)%Z ->
  (forall skey, skey ∈ skeys -> logless w work_path (dict_get row skey)) ->
  (forall skey spath, skey ∈ skeys -> dict_get row skey = Some (Str spath) ->
     parse_subtask_status (Path_div work_path spath) small_thresh_default w
     = mkOutcome (Ret TBD) w []) /\
  main_row work_path tasks twidth skeys wrap records (i, row) w
  = mkOutcome (Ret (records ++ row_records w tasks skeys (i, row))) w
      (out (print_task_row (Task.name task)
              (map (fun _ => colored_status_string TBD) skeys) twidth wrap w)).
Proof.
  intros Htask Hname Hwrap Hcells.
  assert (Hparse : forall skey spath, skey ∈ skeys -> dict_get row skey = Some (Str spath) ->
            parse_subtask_status (Path_div work_path spath) small_thresh_default w
            = mkOutcome (Ret TBD) w []).
  { intros skey spath Hskey Hcell. apply parse_subtask_status_no_logs.
    destruct (Hcells skey Hskey) as (spath' & Hcell' & Hlogs).
    rewrite Hcell in Hcell'. by injection Hcell' as <-. }
  split; [exact Hparse|].
  unfold main_row. cbn [fst snd]. rewrite Htask, Hname.
  erewrite bind_run by apply ret_run.
  erewrite bind_run by apply ret_run.
  rewrite bool_decide_eq_true_2 by done.
  erewrite bind_run by apply ret_run.
  set (abs := fun cell : option Cell =>
                match cell with Some (Str s) => Path_div work_path s | _ => "" end).
  erewrite bind_run.
  2:{ apply (mapM_run _ abs). intros cell (skey & -> & Hskey)%list_elem_of_fmap.
      destruct (Hcells skey Hskey) as (spath & -> & _).
      simpl. erewrite bind_run by apply ret_run. reflexivity. }
  erewrite bind_run.
  2:{ apply (mapM_run _ (fun _ => colored_status_string TBD)).
      intros p (cell & -> & (skey & -> & Hskey)%list_elem_of_fmap)%list_elem_of_fmap.
      destruct (Hcells skey Hskey) as (spath & Hcell & _). rewrite Hcell. simpl.
      erewrite bind_run by (by eapply Hparse). reflexivity. }
  erewrite bind_run by (by apply print_task_row_run).
  erewrite bind_run.
  2:{ apply (mapM_run _ (fun kp : string * option Cell =>
                           cell_records w (Task.name task) kp.1 kp.2)).
      intros [skey cell] Hin.
      apply list_elem_of_lookup in Hin as [j Hj].
      apply lookup_zip_with_Some in Hj as (skey' & cell' & [= <- <-] & Hk & Hc).
      rewrite list_lookup_fmap, Hk in Hc. injection Hc as <-.
      destruct (Hcells skey) as (spath & Hcell & _);
        [apply list_elem_of_lookup; by exists j|].
      cbn [fst snd]. rewrite Hcell. simpl.
      erewrite bind_run by apply ret_run.
      erewrite bind_run by apply log_paths_with_statuses_run. reflexivity. }
  rewrite print_task_row_run by done.
  unfold ret. cbn [res wld out app].
  rewrite ?length_map, ?map_map, ?app_nil_r.
  f_equal. f_equal.
  unfold row_records. cbn [fst snd]. rewrite Htask. f_equal.
  clear. induction skeys as [|skey skeys IH]; simpl; [done | by rewrite IH].
Qed.

(** * Further properties of the module *)

(** Propositional steps in the lemmas on pure helpers: the section's
    variables are cleared first, since a variable of type [string] or of a
    function type is read as a hypothesis by [tauto]. *)
Ltac prop_solver :=
  clear STATUS_WIDTH colored_status_string INFO_FILE TableKey_task Path_div;
  tauto.

(** ** The rule table, read backwards *)

Lemma common_or_mixed (log_stats : list Status) :
  log_stats <> [] ->
  (exists X, forall s, s ∈ log_stats -> s = X) \/ mixed log_stats.
Proof using.
  intros Hne. destruct log_stats as [|a l]; [done|].
  destruct (decide (Forall (fun s => s = a) l)) as [Hall|Hnall].
  - left. exists a. intros s [->|Hs]%elem_of_cons; [done|].
    by eapply Forall_forall in Hall.
  - right. apply not_Forall_Exists in Hnall; [|apply _].
    apply Exists_exists in Hnall as (b & Hb & Hne').
    exists a, b. split; [left|]. split; [by right|]. congruence.
Qed.

(** Every list of statuses falls under one of the rules. *)
Lemma status_of_log_stats_cases log_stats small_thresh :
  let k := error_count_of log_stats in
  let n := length log_stats in
  let r := status_of_log_stats log_stats small_thresh in
  (log_stats = [] /\ r = Ret TBD) \/
  (exists X, log_stats <> [] /\ (forall s, s ∈ log_stats -> s = X) /\ r = Ret X) \/
  (mixed log_stats /\ RUNNING ∈ log_stats /\ r = Ret RUNNING) \/
  (mixed log_stats /\ (RUNNING ∉ log_stats) /\ k = 1 /\
     (error_frac 1 n < small_thresh)%Q /\ r = Ret OK_1E) \/
  (mixed log_stats /\ (RUNNING ∉ log_stats) /\ k = 2 /\
     (error_frac 2 n < small_thresh)%Q /\ r = Ret OK_2E) \/
  (mixed log_stats /\ (RUNNING ∉ log_stats) /\ ERROR ∈ log_stats /\
     ~ (k = 1 /\ (error_frac 1 n < small_thresh)%Q) /\
     ~ (k = 2 /\ (error_frac 2 n < small_thresh)%Q) /\ r = Ret ERROR) \/
  (mixed log_stats /\ (RUNNING ∉ log_stats) /\ (ERROR ∉ log_stats) /\
     (list_to_set log_stats : gset Status) = {[OK; WARNING]} /\ r = Ret WARNING) \/
  (mixed log_stats /\ (RUNNING ∉ log_stats) /\ (ERROR ∉ log_stats) /\
     (list_to_set log_stats : gset Status) <> {[OK; WARNING]} /\
     r = Raise (AssertionError OkWarningOnly)).
Proof using.
  intros k n r.
  destruct (decide (log_stats = [])) as [->|Hne]; [by left|]. right.
  destruct (common_or_mixed _ Hne) as [[X HX]|Hmix].
  { left. exists X. repeat split; [done | done |].
    by apply status_of_log_stats_common. }
  right.
  unfold r. rewrite (status_of_log_stats_mixed _ _ Hmix). fold k n.
  destruct (decide (RUNNING ∈ log_stats)) as [Hrun|Hrun]; [by left|]. right.
  assert (Hdec : forall j, {k = j /\ (error_frac j n < small_thresh)%Q}
                          + {~ (k = j /\ (error_frac j n < small_thresh)%Q)}).
  { intros j. destruct (decide (k = j)) as [Hk|Hk]; [|right; by intros [? _]].
    destruct (Qlt_le_dec (error_frac j n) small_thresh) as [Hlt|Hle]; [by left|].
    right. intros [_ Hlt]. by apply Qlt_not_le in Hlt. }
  destruct (Hdec 1) as [[H1 H1']|H1].
  { left. rewrite (guard_true 1 n small_thresh H1' k H1). done. }
  right. rewrite (guard_false 1 n small_thresh k H1).
  destruct (Hdec 2) as [[H2 H2']|H2].
  { left. rewrite (guard_true 2 n small_thresh H2' k H2). done. }
  right. rewrite (guard_false 2 n small_thresh k H2).
  destruct (decide (ERROR ∈ log_stats)) as [Herr|Herr]; [by left|]. right.
  destruct (decide (_ = _)) as [Hset|Hset]; [by left | by right].
Qed.

Ltac last_conj H :=
  repeat match type of H with _ /\ _ => destruct H as [_ H] end.

Lemma mixed_not_common (log_stats : list Status) X :
  mixed log_stats -> (forall s, s ∈ log_stats -> s = X) -> False.
Proof using.
  intros (a & b & Ha & Hb & Hab) Hall. apply Hab.
  by rewrite (Hall a Ha), (Hall b Hb).
Qed.

Lemma outcome_res_eq {A} (r r' : Res A) w :
  mkOutcome r w [] = mkOutcome r' w [] <-> r = r'.
Proof using. split; [by intros [= ->] | by intros ->]. Qed.

Lemma elem_of_OK_WARNING (log_stats : list Status) :
  (list_to_set log_stats : gset Status) = {[OK; WARNING]} ->
  (forall s, s ∈ log_stats -> s = OK \/ s = WARNING) /\
  OK ∈ log_stats /\ WARNING ∈ log_stats.
Proof using.
  intros Hset.
  assert (H : forall s, s ∈ log_stats <-> s = OK \/ s = WARNING).
  { intros s. rewrite <- (elem_of_list_to_set (C := gset Status)), Hset.
    rewrite elem_of_union, !elem_of_singleton. done. }
  split; [intros s; apply H|]. split; apply H; auto.
Qed.

(** X1: a subtask is shown as OK exactly when it has logs and all of them
    are OK, and as TBD exactly when it has no log or all its logs are TBD. *)
Theorem parse_subtask_status_OK_TBD_iff (w : World) (path : string) (small_thresh : Q) :
  (parse_subtask_status path small_thresh w = mkOutcome (Ret OK) w []
     <-> log_stats_at w path <> [] /\ forall s, s ∈ log_stats_at w path -> s = OK) /\
  (parse_subtask_status path small_thresh w = mkOutcome (Ret TBD) w []
     <-> log_stats_at w path = [] \/ forall s, s ∈ log_stats_at w path -> s = TBD).
Proof using.
  rewrite parse_subtask_status_run, !outcome_res_eq.
  set (log_stats := log_stats_at w path).
  pose proof (status_of_log_stats_cases log_stats small_thresh) as Hc. simpl in Hc.
  assert (Hhead : forall X, log_stats <> [] -> (forall s, s ∈ log_stats -> s = X) ->
                            X ∈ log_stats).
  { intros X Hne HX. destruct log_stats as [|a l]; [done|].
    rewrite <- (HX a) by left. left. }
  destruct Hc as [[He Hr]|[(X & Hne & HX & Hr)|Hc]].
  - rewrite Hr, He. split; split; try done; try (by intros [? _]); by left.
  - rewrite Hr. split; split.
    + intros [= ->]. done.
    + intros [_ Hall]. f_equal. apply Hall. by apply Hhead.
    + intros [= ->]. by right.
    + intros [?|Hall]; [done|]. f_equal. apply Hall. by apply Hhead.
  - assert (Hmix : mixed log_stats) by (destruct Hc as [H|[H|[H|[H|[H|H]]]]]; apply H).
    assert (Hr : status_of_log_stats log_stats small_thresh <> Ret OK /\
                 status_of_log_stats log_stats small_thresh <> Ret TBD).
    { destruct Hc as [H|[H|[H|[H|[H|H]]]]];
        last_conj H; rewrite H; done. }
    destruct Hr as [HnOK HnTBD]. split; split; try done.
    + intros [_ Hall]. by destruct (mixed_not_common _ _ Hmix Hall).
    + intros [He|Hall]; [by destruct (mixed_nonempty _ Hmix)|].
      by destruct (mixed_not_common _ _ Hmix Hall).
Qed.

(** X2: a subtask is shown as RUNNING exactly when one of its logs is
    RUNNING. *)
Theorem parse_subtask_status_RUNNING_iff (w : World) (path : string) (small_thresh : Q) :
  parse_subtask_status path small_thresh w = mkOutcome (Ret RUNNING) w []
  <-> RUNNING ∈ log_stats_at w path.
Proof using.
  rewrite parse_subtask_status_run, outcome_res_eq.
  set (log_stats := log_stats_at w path).
  pose proof (status_of_log_stats_cases log_stats small_thresh) as Hc. simpl in Hc.
  destruct Hc as [[He Hr]|[(X & Hne & HX & Hr)|[(_ & Hrun & Hr)|Hc]]].
  - rewrite Hr, He. split; [done | by intros ?%not_elem_of_nil].
  - rewrite Hr. split.
    + intros [= ->]. destruct log_stats as [|a l]; [done|].
      rewrite <- (HX a) by left. left.
    + intros Hrun. f_equal. symmetry. by apply HX.
  - by rewrite Hr.
  - assert (Hrun : RUNNING ∉ log_stats)
      by (destruct Hc as [H|[H|[H|[H|H]]]]; apply H).
    split; [|done].
    destruct Hc as [H|[H|[H|[H|H]]]];
      last_conj H; rewrite H; done.
Qed.

(** X3: the only exception of the aggregation is the failed assertion, and
    it is raised exactly for logs of at least two statuses, none of them
    RUNNING or ERROR, whose statuses are not OK and WARNING. *)
Theorem parse_subtask_status_raises_iff (w : World) (path : string) (small_thresh : Q) :
  let log_stats := log_stats_at w path in
  ((exists e, res (parse_subtask_status path small_thresh w) = Raise e)
     <-> mixed log_stats /\ (RUNNING ∉ log_stats) /\ (ERROR ∉ log_stats) /\
         (list_to_set log_stats : gset Status) <> {[OK; WARNING]}) /\
  (forall e, res (parse_subtask_status path small_thresh w) = Raise e ->
             e = AssertionError OkWarningOnly).
Proof using.
  intros log_stats. rewrite parse_subtask_status_run. cbn [res]. fold log_stats.
  pose proof (status_of_log_stats_cases log_stats small_thresh) as Hc. simpl in Hc.
  destruct Hc as [[He Hr]|[(X & Hne & HX & Hr)|[(_ & Hrun & Hr)|
                 [(_ & _ & Hk & _ & Hr)|[(_ & _ & Hk & _ & Hr)|
                 [(_ & _ & Herr & _ & _ & Hr)|[(_ & _ & _ & Hset & Hr)|
                  (Hmix & Hrun & Herr & Hset & Hr)]]]]]]]; rewrite Hr.
  - split; [|done]. split; [by intros [e ?]|].
    intros (Hmix & _). by destruct (mixed_nonempty _ Hmix).
  - split; [|done]. split; [by intros [e ?]|].
    intros (Hmix & _). by destruct (mixed_not_common _ _ Hmix HX).
  - split; [|done]. split; [by intros [e ?] | by intros (_ & ? & _)].
  - split; [|done]. split; [by intros [e ?]|].
    intros (_ & _ & Herr & _). exfalso. apply Herr, error_count_elem. lia.
  - split; [|done]. split; [by intros [e ?]|].
    intros (_ & _ & Herr & _). exfalso. apply Herr, error_count_elem. lia.
  - split; [|done]. split; [by intros [e ?] | by intros (_ & _ & ? & _)].
  - split; [|done]. split; [by intros [e ?] | by intros (_ & _ & _ & ?)].
  - split; [|by intros e [= <-]]. split; [done | by eexists].
Qed.

(** X4: errors are not hidden: when a log is ERROR the subtask is shown as
    ERROR, OK_1E, OK_2E or, if another log is RUNNING, as RUNNING, and never
    as OK, WARNING or TBD; the aggregation does not fail either. *)
Theorem parse_subtask_status_shows_errors (w : World) (path : string) (small_thresh : Q) :
  let log_stats := log_stats_at w path in
  let r := res (parse_subtask_status path small_thresh w) in
  ERROR ∈ log_stats ->
  (RUNNING ∈ log_stats -> r = Ret RUNNING) /\
  (RUNNING ∉ log_stats -> r = Ret ERROR \/ r = Ret OK_1E \/ r = Ret OK_2E).
Proof using.
  intros log_stats r Herr. unfold r.
  rewrite parse_subtask_status_run. cbn [res]. fold log_stats.
  pose proof (status_of_log_stats_cases log_stats small_thresh) as Hc. simpl in Hc.
  destruct Hc as [[He Hr]|[(X & Hne & HX & Hr)|[(_ & Hrun & Hr)|
                 [(_ & Hrun & _ & _ & Hr)|[(_ & Hrun & _ & _ & Hr)|
                 [(_ & Hrun & _ & _ & _ & Hr)|[(_ & _ & Hnerr & _)|
                  (_ & _ & Hnerr & _)]]]]]]].
  - rewrite He in Herr. by apply not_elem_of_nil in Herr.
  - rewrite Hr. pose proof (HX ERROR Herr) as HE. split.
    + intros Hrun. pose proof (HX RUNNING Hrun). congruence.
    + intros _. left. congruence.
  - rewrite Hr. split; [done | intros Hn; by destruct (Hn Hrun)].
  - rewrite Hr. split; [intros Hr'; by destruct (Hrun Hr') | intros _; right; by left].
  - rewrite Hr. split; [intros Hr'; by destruct (Hrun Hr') | intros _; right; by right].
  - rewrite Hr. split; [intros Hr'; by destruct (Hrun Hr') | intros _; by left].
  - by destruct (Hnerr Herr).
  - by destruct (Hnerr Herr).
Qed.

(** X5: what the other results say about the logs: ERROR is shown only if a
    log is ERROR; WARNING only if every log is OK or WARNING and one is
    WARNING; OK_1E (OK_2E) only if all logs have this very status or exactly
    one (two) of them is ERROR and none is RUNNING. *)
Theorem parse_subtask_status_result_sound (w : World) (path : string) (small_thresh : Q) :
  let log_stats := log_stats_at w path in
  let r := res (parse_subtask_status path small_thresh w) in
  (r = Ret ERROR -> ERROR ∈ log_stats) /\
  (r = Ret WARNING ->
     (forall s, s ∈ log_stats -> s = OK \/ s = WARNING) /\ WARNING ∈ log_stats) /\
  (r = Ret OK_1E ->
     (forall s, s ∈ log_stats -> s = OK_1E) \/
     (error_count_of log_stats = 1 /\ (RUNNING ∉ log_stats) /\
      (error_frac 1 (length log_stats) < small_thresh)%Q)) /\
  (r = Ret OK_2E ->
     (forall s, s ∈ log_stats -> s = OK_2E) \/
     (error_count_of log_stats = 2 /\ (RUNNING ∉ log_stats) /\
      (error_frac 2 (length log_stats) < small_thresh)%Q)).
Proof using.
  intros log_stats r. unfold r.
  rewrite parse_subtask_status_run. cbn [res]. fold log_stats.
  pose proof (status_of_log_stats_cases log_stats small_thresh) as Hc. simpl in Hc.
  destruct Hc as [[He Hr]|[(X & Hne & HX & Hr)|[(_ & Hrun & Hr)|
                 [(_ & Hrun & Hk & Hlt & Hr)|[(_ & Hrun & Hk & Hlt & Hr)|
                 [(_ & Hrun & Herr & _ & _ & Hr)|[(_ & _ & _ & Hset & Hr)|
                  (_ & _ & _ & _ & Hr)]]]]]]]; rewrite Hr.
  - repeat split; done.
  - assert (Hhead : X ∈ log_stats).
    { destruct log_stats as [|a l]; [done|]. rewrite <- (HX a) by left. left. }
    split; [by intros [= ->]|]. split; [|split].
    + intros [= ->]. split; [|done]. intros s Hs. right. by apply HX.
    + intros [= ->]. by left.
    + intros [= ->]. by left.
  - repeat split; done.
  - split; [done|]. split; [done|]. split; [|done]. intros _. by right.
  - split; [done|]. split; [done|]. split; [done|]. intros _. by right.
  - repeat split; done.
  - split; [done|]. split; [|done]. intros _.
    destruct (elem_of_OK_WARNING _ Hset) as (? & _ & ?). done.
  - repeat split; done.
Qed.

(** ** The dictionary of a directory *)

Lemma unique_everseen_from_ext seen seen' xs :
  (forall y, y ∈ seen <-> y ∈ seen') ->
  unique_everseen_from seen xs = unique_everseen_from seen' xs.
Proof using.
  revert seen seen'. induction xs as [|x xs IH]; intros seen seen' Heq; simpl; [done|].
  rewrite (decide_ext (x ∈ seen) (x ∈ seen')) by apply Heq.
  destruct (decide (x ∈ seen')); [by apply IH|].
  f_equal. apply IH. intros y. rewrite !elem_of_cons, Heq. done.
Qed.

Lemma elem_of_unique_everseen_from seen xs y :
  y ∈ unique_everseen_from seen xs <-> y ∈ xs /\ y ∉ seen.
Proof using.
  revert seen. induction xs as [|x xs IH]; intros seen; simpl.
  - split; [by intros ?%not_elem_of_nil | by intros [?%not_elem_of_nil _]].
  - destruct (decide (x ∈ seen)) as [Hin|Hnin].
    + rewrite IH, elem_of_cons. split; [prop_solver|]. intros [[->|?] ?]; prop_solver.
    + rewrite elem_of_cons, IH, !elem_of_cons.
      destruct (decide (y = x)) as [->|Hne]; [prop_solver|]. prop_solver.
Qed.

Lemma NoDup_unique_everseen_from seen xs : NoDup (unique_everseen_from seen xs).
Proof using.
  revert seen. induction xs as [|x xs IH]; intros seen; simpl; [constructor|].
  destruct (decide (x ∈ seen)); [apply IH|].
  constructor; [|apply IH].
  rewrite elem_of_unique_everseen_from. intros [_ Hn]. apply Hn. left.
Qed.

Lemma dict_set_present {V} (g : string -> V) ks k :
  k ∈ ks ->
  dict_set (map (fun k => (k, g k)) ks) k (g k) = map (fun k => (k, g k)) ks.
Proof using.
  induction ks as [|k' ks IH]; simpl; [by intros ?%not_elem_of_nil|].
  intros Hin. destruct (decide (k' = k)) as [->|Hne]; [done|].
  f_equal. apply IH. apply elem_of_cons in Hin as [->|?]; done.
Qed.

(** The dictionary built from the scanned paths and their statuses has one
    entry per path, in the order of the first occurrences. *)
Lemma dict_of_zip_map {V} (g : string -> V) l :
  dict_of (zip l (map g l)) = map (fun k => (k, g k)) (unique_everseen l).
Proof using.
  unfold dict_of, unique_everseen.
  assert (H : forall ks,
            fold_left (fun d kv => dict_set d kv.1 kv.2) (zip l (map g l))
                      (map (fun k => (k, g k)) ks)
            = map (fun k => (k, g k)) ks
                ++ map (fun k => (k, g k)) (unique_everseen_from ks l)).
  { induction l as [|x l IH]; intros ks; simpl; [by rewrite app_nil_r|].
    destruct (decide (x ∈ ks)) as [Hin|Hnin].
    - rewrite dict_set_present by done. apply IH.
    - rewrite dict_set_fresh.
      2:{ rewrite map_map. simpl. by rewrite map_id. }
      change [(x, g x)] with (map (fun k => (k, g k)) [x]). rewrite <- map_app.
      rewrite IH. rewrite map_app. simpl. rewrite <- app_assoc. simpl.
      do 3 f_equal. apply unique_everseen_from_ext.
      intros y. rewrite elem_of_app, !elem_of_cons, elem_of_nil. prop_solver. }
  apply (H []).
Qed.

Lemma log_dct_at_unique w path :
  log_dct_at w path
  = map (fun p => (p, fs_status w p)) (unique_everseen (default [] (fs_logs w !! path))).
Proof using. unfold log_dct_at. apply dict_of_zip_map. Qed.

(** X6: [log_paths_with_statuses] returns, without printing or writing, a
    dictionary with one entry per scanned log path whose status is not
    excluded, the value being the status of that log; a directory that does
    not exist gives the empty dictionary. *)
Theorem log_paths_with_statuses_spec
    (path : string) (exclude_stats : list Status) (w : World) :
  exists log_dct,
    log_paths_with_statuses path exclude_stats w = mkOutcome (Ret log_dct) w [] /\
    NoDup (map fst log_dct) /\
    (forall log_path s,
       (log_path, s) ∈ log_dct <->
       log_path ∈ default [] (fs_logs w !! path) /\ s = fs_status w log_path /\
       s ∉ exclude_stats) /\
    (fs_logs w !! path = None -> log_dct = []).
Proof using.
  eexists. split; [apply log_paths_with_statuses_run|].
  rewrite log_dct_at_unique.
  set (scan := default [] (fs_logs w !! path)).
  split; [|split].
  - eapply NoDup_fmap_2_strong; [|apply NoDup_filter, (NoDup_fmap_2_strong _ _)].
    + intros [p s] [p' s'] [_ (q & [= -> ->] & _)%list_elem_of_fmap]%list_elem_of_filter
        [_ (q' & [= -> ->] & _)%list_elem_of_fmap]%list_elem_of_filter. simpl.
      by intros ->.
    + intros p p' _ _ [= ->]. done.
    + apply NoDup_unique_everseen_from.
  - intros log_path s. rewrite list_elem_of_filter, list_elem_of_fmap. simpl. split.
    + intros [Hn (p & [= -> ->] & Hp)].
      apply elem_of_unique_everseen_from in Hp as [Hp _]. done.
    + intros (Hp & -> & Hn). split; [done|]. exists log_path. split; [done|].
      apply elem_of_unique_everseen_from. split; [done | apply not_elem_of_nil].
  - intros Hnone. unfold scan. rewrite Hnone. reflexivity.
Qed.

Lemma log_stats_at_unique w path :
  log_stats_at w path
  = map (fs_status w) (unique_everseen (default [] (fs_logs w !! path))).
Proof using. unfold log_stats_at. rewrite log_dct_at_unique, map_map. reflexivity. Qed.

Lemma unique_everseen_Permutation l1 l2 :
  l1 ≡ₚ l2 -> unique_everseen l1 ≡ₚ unique_everseen l2.
Proof using.
  intros Hp. apply NoDup_Permutation; try apply NoDup_unique_everseen_from.
  intros x. unfold unique_everseen. rewrite !elem_of_unique_everseen_from.
  by rewrite Hp.
Qed.

(** X7: the status of a subtask does not depend on the order in which the
    scan of its directory returns the log files. *)
Theorem parse_subtask_status_scan_order
    (w1 w2 : World) (path : string) (small_thresh : Q) (l1 l2 : list string) :
  fs_logs w1 !! path = Some l1 ->
  fs_logs w2 !! path = Some l2 ->
  l1 ≡ₚ l2 ->
  (forall log_path, log_path ∈ l1 -> fs_status w1 log_path = fs_status w2 log_path) ->
  res (parse_subtask_status path small_thresh w1)
  = res (parse_subtask_status path small_thresh w2).
Proof using.
  intros H1 H2 Hp Hstat. rewrite !parse_subtask_status_run. cbn [res].
  apply status_of_log_stats_Permutation.
  rewrite !log_stats_at_unique, H1, H2. cbn [default from_option id].
  trans (map (fs_status w2) (unique_everseen l1)).
  - replace (map (fs_status w1) (unique_everseen l1))
      with (map (fs_status w2) (unique_everseen l1)); [reflexivity|].
    symmetry. apply map_ext_in. intros p Hp1. apply Hstat.
    apply list_elem_of_In in Hp1.
    by apply elem_of_unique_everseen_from in Hp1 as [? _].
  - apply fmap_Permutation. by apply unique_everseen_Permutation.
Qed.

(** X8: a larger [small_thresh] tolerates more: a subtask that is OK_1E or
    OK_2E for a threshold is so for every larger threshold. *)
Theorem parse_subtask_status_tolerance_monotone
    (w : World) (path : string) (small_thresh small_thresh' : Q) :
  (small_thresh <= small_thresh')%Q ->
  (res (parse_subtask_status path small_thresh w) = Ret OK_1E ->
   res (parse_subtask_status path small_thresh' w) = Ret OK_1E) /\
  (res (parse_subtask_status path small_thresh w) = Ret OK_2E ->
   res (parse_subtask_status path small_thresh' w) = Ret OK_2E).
Proof using.
  intros Hle. rewrite !parse_subtask_status_run. cbn [res].
  set (log_stats := log_stats_at w path).
  pose proof (status_of_log_stats_cases log_stats small_thresh) as Hc. simpl in Hc.
  destruct Hc as [[He Hr]|[(X & Hne & HX & Hr)|[(_ & Hrun & Hr)|
                 [(Hmix & Hrun & Hk & Hlt & Hr)|[(Hmix & Hrun & Hk & Hlt & Hr)|
                 [(_ & _ & _ & _ & _ & Hr)|[(_ & _ & _ & _ & Hr)|
                  (_ & _ & _ & _ & Hr)]]]]]]]; rewrite Hr; try (split; discriminate).
  - rewrite (status_of_log_stats_common _ _ X Hne HX). done.
  - split; [|discriminate]. intros _.
    rewrite (status_of_log_stats_mixed _ _ Hmix), decide_False by done.
    rewrite (guard_true 1 (length log_stats) small_thresh'); [done| |done].
    eapply Qlt_le_trans; eassumption.
  - split; [discriminate|]. intros _.
    rewrite (status_of_log_stats_mixed _ _ Hmix), decide_False by done.
    rewrite (guard_false 1) by (intros [? _]; lia).
    rewrite (guard_true 2 (length log_stats) small_thresh'); [done| |done].
    eapply Qlt_le_trans; eassumption.
Qed.

(** X9: with a threshold of zero or less nothing is tolerated: a subtask
    with an ERROR log and no RUNNING log is ERROR. *)
Theorem parse_subtask_status_no_tolerance
    (w : World) (path : string) (small_thresh : Q) :
  (small_thresh <= 0)%Q ->
  ERROR ∈ log_stats_at w path -> RUNNING ∉ log_stats_at w path ->
  parse_subtask_status path small_thresh w = mkOutcome (Ret ERROR) w [].
Proof using.
  intros Hle Herr Hrun. rewrite parse_subtask_status_run. f_equal.
  set (log_stats := log_stats_at w path) in *.
  assert (Hfrac : forall k, ~ (error_frac k (length log_stats) < small_thresh)%Q).
  { intros k Hlt. apply (Qlt_not_le _ _ Hlt). apply (Qle_trans _ 0); [exact Hle|].
    unfold error_frac, Qle. simpl. lia. }
  pose proof (status_of_log_stats_cases log_stats small_thresh) as Hc. simpl in Hc.
  destruct Hc as [[He Hr]|[(X & Hne & HX & Hr)|[(_ & Hrun' & Hr)|
                 [(_ & _ & _ & Hlt & Hr)|[(_ & _ & _ & Hlt & Hr)|
                 [(_ & _ & _ & _ & _ & Hr)|[(_ & _ & Hnerr & _)|
                  (_ & _ & Hnerr & _)]]]]]]]; try done.
  - rewrite He in Herr. by apply not_elem_of_nil in Herr.
  - rewrite Hr. f_equal. symmetry. by apply HX.
  - by destruct (Hfrac 1).
  - by destruct (Hfrac 2).
Qed.

(** ** The columns of a group *)

Lemma unique_everseen_from_app seen xs ys :
  unique_everseen_from seen (xs ++ ys)
  = unique_everseen_from seen xs ++ unique_everseen_from (xs ++ seen) ys.
Proof using.
  revert seen. induction xs as [|x xs IH]; intros seen; simpl; [done|].
  destruct (decide (x ∈ seen)) as [Hin|Hnin].
  - rewrite IH. f_equal. apply unique_everseen_from_ext.
    intros y. rewrite ?elem_of_app, ?elem_of_cons, ?elem_of_app.
    destruct (decide (y = x)) as [->|]; prop_solver.
  - simpl. rewrite IH. do 2 f_equal. apply unique_everseen_from_ext.
    intros y. rewrite ?elem_of_app, ?elem_of_cons, ?elem_of_app. prop_solver.
Qed.

Lemma unique_everseen_from_NoDup seen xs :
  NoDup xs -> (forall x, x ∈ xs -> x ∉ seen) -> unique_everseen_from seen xs = xs.
Proof using.
  revert seen. induction xs as [|x xs IH]; intros seen Hnd Hdis; simpl; [done|].
  apply NoDup_cons in Hnd as [Hx Hnd].
  rewrite decide_False by (apply Hdis; left). f_equal. apply IH; [done|].
  intros y Hy [->|Hin]%elem_of_cons; [done|]. apply (Hdis y); [by right | done].
Qed.

Lemma unique_everseen_from_seen seen xs :
  (forall x, x ∈ xs -> x ∈ seen) -> unique_everseen_from seen xs = [].
Proof using.
  induction xs as [|x xs IH]; intros Hin; simpl; [done|].
  rewrite decide_True by (apply Hin; left). apply IH. intros y Hy. apply Hin. by right.
Qed.

Lemma unique_everseen_from_sublist seen xs : sublist (unique_everseen_from seen xs) xs.
Proof using.
  revert seen. induction xs as [|x xs IH]; intros seen; simpl; [constructor|].
  destruct (decide (x ∈ seen)); [apply sublist_cons | apply sublist_skip]; apply IH.
Qed.

(** X10: [task_column_width] raises [ValueError] for an empty catalog;
    otherwise it returns the length of a longest task name. *)
Theorem task_column_width_spec (tasks : list Task.t) (w : World) :
  (tasks = [] -> task_column_width tasks w = mkOutcome (Raise ValueError) w []) /\
  (tasks <> [] ->
   exists width,
     task_column_width tasks w = mkOutcome (Ret width) w [] /\
     (forall task, task ∈ tasks -> String.length (Task.name task) <= width) /\
     (exists task, task ∈ tasks /\ String.length (Task.name task) = width)).
Proof using.
  split; [by intros ->|].
  intros Hne. destruct tasks as [|t ts]; [done|].
  exists (twidth_of (t :: ts)). split; [reflexivity|].
  unfold twidth_of. simpl. split.
  - intros task [->|Hin]%elem_of_cons; [apply fold_left_max_ge|].
    apply fold_left_max_bound.
    by apply (list_elem_of_fmap_2 (fun task => String.length (Task.name task))).
  - destruct (fold_left_max_attained
                (map (fun task => String.length (Task.name task)) ts)
                (String.length (Task.name t))) as [H|H].
    + exists t. split; [left | done].
    + apply (list_elem_of_fmap (fun task => String.length (Task.name task))) in H
        as (task & Hlen & Hin).
      exists task. split; [by right | done].
Qed.

(** X11: [subtask_keys] returns the union of the keys of the tasks: a key is
    returned exactly when some task has it, and no key is returned twice. *)
Theorem subtask_keys_union (tasks : list Task.t) :
  NoDup (subtask_keys tasks) /\
  (forall skey, skey ∈ subtask_keys tasks <->
                exists task, task ∈ tasks /\ skey ∈ Task.subtask_keys task).
Proof using.
  unfold subtask_keys, unique_everseen. split; [apply NoDup_unique_everseen_from|].
  intros skey. rewrite elem_of_unique_everseen_from, elem_of_concat. split.
  - intros [(l & (task & -> & Htask)%list_elem_of_fmap & Hin) _]. by exists task.
  - intros (task & Htask & Hin). split; [|apply not_elem_of_nil].
    exists (Task.subtask_keys task). split; [|done].
    by apply (list_elem_of_fmap_2 Task.subtask_keys).
Qed.

(** X12: [subtask_keys] keeps the order in which the keys are first seen:
    the keys of the first task come first, followed by the keys that only
    later tasks have, in the order of the chained key lists; when all tasks
    have the keys of the first one, these are the columns. *)
Theorem subtask_keys_first_seen (task : Task.t) (tasks : list Task.t) :
  NoDup (Task.subtask_keys task) ->
  subtask_keys (task :: tasks)
    = Task.subtask_keys task
        ++ unique_everseen_from (Task.subtask_keys task)
             (concat (map Task.subtask_keys tasks)) /\
  sublist (subtask_keys (task :: tasks))
          (concat (map Task.subtask_keys (task :: tasks))) /\
  ((forall task', task' ∈ tasks ->
      forall skey, skey ∈ Task.subtask_keys task' -> skey ∈ Task.subtask_keys task) ->
   subtask_keys (task :: tasks) = Task.subtask_keys task).
Proof using.
  intros Hnd.
  assert (Heq : subtask_keys (task :: tasks)
                = Task.subtask_keys task
                    ++ unique_everseen_from (Task.subtask_keys task)
                         (concat (map Task.subtask_keys tasks))).
  { unfold subtask_keys, unique_everseen. simpl.
    rewrite unique_everseen_from_app, app_nil_r.
    f_equal. apply unique_everseen_from_NoDup; [done|].
    intros x _. apply not_elem_of_nil. }
  split; [exact Heq|]. split.
  - apply unique_everseen_from_sublist.
  - intros Hsame. rewrite Heq, unique_everseen_from_seen; [by rewrite app_nil_r|].
    intros x (l & (task' & -> & Htask')%list_elem_of_fmap & Hin)%elem_of_concat.
    by eapply Hsame.
Qed.

(** ** Rows that fit, rows that do not, and the widths of the lines *)

Lemma chunked_fits {A} (vals : list A) n :
  vals <> [] -> length vals <= n -> chunked vals n = [vals].
Proof using.
  intros Hne Hlen. unfold chunked.
  destruct vals as [|v vals]; [done|]. cbn [length chunked_go].
  rewrite take_ge, drop_ge by done.
  assert (Hnil : chunked_go (length vals) n (@nil A) = []).
  { destruct (length vals); [done|]. simpl. by rewrite take_nil. }
  by rewrite Hnil.
Qed.

Lemma chunked_zero {A} (vals : list A) : chunked vals 0 = [].
Proof using. unfold chunked. by destruct (length vals), vals. Qed.

(** X13: a row that fits in a wrap width that the chunking accepts (at most
    [sys.maxsize]) is printed on one line, the right-justified label
    followed by the centered values with one blank between them, and no
    guide line follows it. *)
Theorem print_task_row_fits
    (label : string) (vals : list string) (label_width : nat) (wrap : Z) (w : World) :
  vals <> [] -> (Z.of_nat (length vals) <= wrap <= sys_maxsize)%Z ->
  print_task_row label vals label_width wrap w
  = mkOutcome (Ret tt) w
      [rjust label label_width +:+ join " " (map (fun v => center v STATUS_WIDTH) vals)].
Proof.
  intros Hne Hlen. rewrite print_task_row_run by lia.
  rewrite chunked_fits by (done || lia).
  unfold guide_lines. destruct (Z.ltb_spec wrap (Z.of_nat (length vals))); [lia|].
  reflexivity.
Qed.

(** X14: the degenerate calls of [print_task_row]: a wrap width that is
    negative or above [sys.maxsize] raises [ValueError] before anything is
    printed, whatever the values are; a wrap width of zero prints no value
    at all, only the guide line, of [label_width] characters, if there are
    values; and without values, for a wrap width from zero to
    [sys.maxsize], nothing is printed, not even the label. *)
Theorem print_task_row_degenerate
    (label : string) (vals : list string) (label_width : nat) (wrap : Z) (w : World) :
  ((wrap < 0 \/ sys_maxsize < wrap)%Z ->
     print_task_row label vals label_width wrap w = mkOutcome (Raise ValueError) w []) /\
  (wrap = 0%Z -> vals <> [] ->
     print_task_row label vals label_width wrap w
     = mkOutcome (Ret tt) w [str_repeat "-" label_width]) /\
  ((0 <= wrap <= sys_maxsize)%Z -> vals = [] ->
     print_task_row label vals label_width wrap w = mkOutcome (Ret tt) w []).
Proof.
  split.
  { intros [Hneg|Hbig];
      [by apply print_task_row_negative | by apply print_task_row_too_large]. }
  split.
  - intros -> Hne. rewrite print_task_row_run by done.
    change (Z.to_nat 0) with 0. rewrite chunked_zero.
    unfold guide_lines, guide_width.
    destruct (Z.ltb_spec 0 (Z.of_nat (length vals))) as [_|Hle].
    + simpl. do 3 f_equal. lia.
    + destruct vals; [done | simpl in Hle; lia].
  - intros Hwrap ->. rewrite print_task_row_run by lia.
    unfold guide_lines. simpl.
    destruct (Z.ltb_spec wrap (Z.of_nat 0)); [lia | reflexivity].
Qed.

Lemma length_rjust s width :
  String.length s <= width -> String.length (rjust s width) = width.
Proof using. intros H. unfold rjust. rewrite length_string_app, length_spaces. lia. Qed.

Lemma length_center s width :
  String.length s <= width -> String.length (center s width) = width.
Proof using.
  intros H. unfold center. rewrite !length_string_app, !length_spaces.
  assert ((width - String.length s) / 2 <= width - String.length s)
    by (apply Nat.Div0.div_le_upper_bound; lia).
  lia.
Qed.

Lemma length_join_cells (cells : list string) width :
  cells <> [] -> (forall v, v ∈ cells -> String.length v = width) ->
  String.length (join " " cells) = length cells * (width + 1) - 1.
Proof using.
  induction cells as [|v cells IH]; [done|]. intros _ Hall.
  destruct cells as [|v' cells].
  - simpl. rewrite (Hall v) by left. lia.
  - change (join " " (v :: v' :: cells)) with (v +:+ " " +:+ join " " (v' :: cells)).
    rewrite !length_string_app, IH; [|done|intros x Hx; apply Hall; by right].
    rewrite (Hall v) by left. simpl. lia.
Qed.

(** X15: for a wrap width from 1 to [sys.maxsize], when the label and the
    values are not longer than their columns,
    the line of a chunk of [c] values has [label_width + c * (STATUS_WIDTH +
    1) - 1] characters: the lines of full chunks are equally long, and the
    guide line is one character longer than they are. *)
Theorem print_task_row_line_widths
    (label : string) (vals : list string) (label_width : nat) (wrap : Z) (w : World) :
  (1 <= wrap <= sys_maxsize)%Z ->
  String.length label <= label_width ->
  (forall v, v ∈ vals -> String.length v <= STATUS_WIDTH) ->
  let printed := out (print_task_row label vals label_width wrap w) in
  let chunks := chunked vals (Z.to_nat wrap) in
  (forall i c, chunks !! i = Some c ->
     exists line, printed !! i = Some line /\
       String.length line = label_width + length c * (STATUS_WIDTH + 1) - 1) /\
  (Z.to_nat wrap < length vals ->
     exists guide, printed !! length chunks = Some guide /\
       String.length guide = label_width + Z.to_nat wrap * (STATUS_WIDTH + 1)).
Proof.
  intros Hwrap Hlabel Hvals printed chunks.
  assert (HW : 1 <= Z.to_nat wrap) by lia.
  assert (Hout : printed = chunk_lines label_width label chunks
                             ++ guide_lines label_width (length vals) wrap "-").
  { unfold printed. by rewrite print_task_row_run by lia. }
  assert (Hsizes : Forall (fun c => 1 <= length c <= Z.to_nat wrap) chunks)
    by (by apply chunked_go_sizes).
  assert (Hin : forall c v, c ∈ chunks -> v ∈ c -> v ∈ vals).
  { intros c v Hc Hv. rewrite <- (chunked_go_concat (length vals) (Z.to_nat wrap) vals)
      by done. apply elem_of_concat. by exists c. }
  split.
  - intros i c Hc. eexists. split.
    + rewrite Hout. rewrite lookup_app_l
        by (rewrite length_chunk_lines; by eapply lookup_lt_Some).
      by apply chunk_lines_lookup.
    + unfold chunk_line. rewrite length_string_app.
      assert (Hci : c ∈ chunks) by (apply list_elem_of_lookup; by exists i).
      rewrite (length_join_cells _ STATUS_WIDTH).
      * rewrite length_map, length_rjust.
        -- eapply Forall_forall in Hsizes; [|exact Hci]. simpl in Hsizes. nia.
        -- destruct (decide (i = 0)); [done | simpl; lia].
      * eapply Forall_forall in Hsizes; [|exact Hci]. simpl in Hsizes.
        destruct c; [simpl in Hsizes; lia | done].
      * intros cell (v & -> & Hv)%list_elem_of_fmap.
        apply length_center, Hvals. by eapply Hin.
  - intros Hlt. eexists. split.
    + rewrite Hout, lookup_app_r by (by rewrite length_chunk_lines).
      rewrite length_chunk_lines, Nat.sub_diag.
      unfold guide_lines. destruct (Z.ltb_spec wrap (Z.of_nat (length vals))); [|lia].
      reflexivity.
    + rewrite length_str_repeat. unfold guide_width. simpl. nia.
Qed.

(** ** Passes that do not end normally *)

Lemma read_file_missing {A} (files : World -> gmap string A) path w :
  files w !! path = None ->
  read_file files path w = mkOutcome (Raise (FileNotFoundError path)) w [].
Proof using.
  intros H. unfold read_file.
  erewrite bind_run by reflexivity. simpl. rewrite H. reflexivity.
Qed.


(** X17: a group whose matrix file is missing ends with the
    [FileNotFoundError] of [pandas.read_csv] for that file, before the
    catalog is looked at; and a group whose matrix is read and whose catalog
    is read as the empty list ends with the [ValueError] of [max] in
    [task_column_width]; nothing of the group has been printed by then. *)
Theorem main_group_load_errors
    (path work_path : string) (wrap : Z) (records : list LogRecord) (group_id : string)
    (w : World) :
  let csv := Path_div path (group_id +:+ ".csv") in
  let yaml := Path_div path (group_id +:+ ".yaml") in
  (fs_csv w !! csv = None ->
     main_group path work_path wrap records group_id w
     = mkOutcome (Raise (FileNotFoundError csv)) w []) /\
  (forall df, fs_csv w !! csv = Some df -> fs_tasks w !! yaml = Some [] ->
     main_group path work_path wrap records group_id w
     = mkOutcome (Raise ValueError) w []).
Proof.
  intros csv yaml. split.
  - intros Hcsv. unfold main_group.
    erewrite bind_raise by (by apply read_file_missing). reflexivity.
  - intros df Hcsv Hyaml. unfold main_group.
    erewrite bind_run by (by apply read_file_run).
    erewrite bind_run by (by apply read_file_run).
    erewrite bind_raise by reflexivity. reflexivity.
Qed.

Lemma mapM_as_path_raises {B} (f : string -> B) (cells : list (option Cell)) w :
  (exists cell, cell ∈ cells /\ (cell = Some NaN \/ cell = None)) ->
  mapM (fun p => bind (as_path p) (fun s => ret (f s))) cells w
  = mkOutcome (Raise TypeError) w [].
Proof using.
  induction cells as [|c cells IH]; intros (cell & Hin & Hcell).
  - by apply not_elem_of_nil in Hin.
  - simpl. destruct c as [[|s]|].
    + reflexivity.
    + erewrite bind_run.
      2:{ erewrite bind_run by apply ret_run. reflexivity. }
      erewrite bind_raise; [reflexivity|].
      apply IH. exists cell. split; [|done].
      apply elem_of_cons in Hin as [->|?]; [|done]. by destruct Hcell.
    + reflexivity.
Qed.

(** X18: the checks that the body of the loop makes on a row before it
    renders it: a row beyond the end of the catalog raises [IndexError], a
    row without the task column raises [KeyError], and a row that lacks one
    of the group's keys, or whose cell for it is blank, raises [TypeError];
    nothing of the row is printed. *)
Theorem main_row_checks
    (work_path : string) (tasks : list Task.t) (twidth : nat) (skeys : list string)
    (wrap : Z) (records : list LogRecord) (i : nat) (row : Row) (w : World) :
  let run := main_row work_path tasks twidth skeys wrap records (i, row) w in
  (length tasks <= i -> run = mkOutcome (Raise IndexError) w []) /\
  (forall task, tasks !! i = Some task -> dict_get row TableKey_task = None ->
     run = mkOutcome (Raise (KeyError TableKey_task)) w []) /\
  (forall task skey,
     tasks !! i = Some task ->
     dict_get row TableKey_task = Some (Str (Task.name task)) ->
     skey ∈ skeys ->
     dict_get row skey = Some NaN \/ dict_get row skey = None ->
     run = mkOutcome (Raise TypeError) w []).
Proof.
  intros run. unfold run, main_row. cbn [fst snd]. split; [|split].
  - intros Hi. rewrite (lookup_ge_None_2 tasks i) by done. reflexivity.
  - intros task Htask Hkey. rewrite Htask, Hkey.
    erewrite bind_run by apply ret_run. reflexivity.
  - intros task skey Htask Hname Hskey Hcell. rewrite Htask, Hname.
    erewrite bind_run by apply ret_run.
    erewrite bind_run by apply ret_run.
    rewrite bool_decide_eq_true_2 by done.
    erewrite bind_run by apply ret_run.
    erewrite bind_raise; [reflexivity|].
    apply mapM_as_path_raises. exists (dict_get row skey).
    split; [|done]. by apply (list_elem_of_fmap_2 (dict_get row)).
Qed.

Lemma foldM_app_raise_out {A B} (body : B -> A -> M B) xs y zs acc acc' e o w :
  (forall acc x, read_only (body acc x)) ->
  res (foldM body xs acc w) = Ret acc' ->
  body acc' y w = mkOutcome (Raise e) w o ->
  foldM body (xs ++ y :: zs) acc w
  = mkOutcome (Raise e) w (out (foldM body xs acc w) ++ o).
Proof using.
  intros Hb Hxs Hy.
  rewrite (foldM_app_raise body xs y zs acc acc' e w Hb Hxs) by (by rewrite Hy).
  by rewrite Hy.
Qed.

(** X19: an exception ends the pass where it is raised: when the groups
    before a group are rendered and that group raises, the pass raises the
    same exception, and what it has printed is what these groups have
    printed; no later group is rendered and the listing of the logs that
    are not OK is not printed. *)
Theorem main_stops_at_exception
    (path : string) (wrap : Z) (w : World) (info : Info)
    (before : list string) (group_id : string) (after : list string)
    (records : list LogRecord) (e : Exn) :
  let groups := foldM (main_group path (work_path info) wrap) before [] w in
  let failing := main_group path (work_path info) wrap records group_id w in
  path ∈ fs_paths w ->
  fs_info w !! Path_div path INFO_FILE = Some info ->
  group_ids info = before ++ group_id :: after ->
  res groups = Ret records ->
  res failing = Raise e ->
  main path wrap w = mkOutcome (Raise e) w (out groups ++ out failing).
Proof.
  intros groups failing Hpath Hinfo Hgroups Hbefore Hfail. unfold main.
  erewrite bind_run by reflexivity. cbn [res wld out app].
  rewrite bool_decide_eq_true_2 by done.
  erewrite bind_run by reflexivity. cbn [res wld out app].
  erewrite bind_run by (by apply read_file_run). cbn [res wld out app].
  erewrite bind_raise; [reflexivity|].
  rewrite Hgroups.
  apply (foldM_app_raise_out _ _ _ _ _ records).
  - intros. apply read_only_main_group.
  - exact Hbefore.
  - fold failing. rewrite (outcome_eta failing), Hfail.
    f_equal. apply read_only_main_group.
Qed.

(** ** The report of a pass that ends normally *)

Lemma silent_bind {A B} (m : M A) (k : A -> M B) :
  silent m -> (forall a, silent (k a)) -> silent (bind m k).
Proof using.
  intros Hm Hk w. unfold bind.
  destruct (res (m w)); cbn [out]; rewrite Hm; [apply Hk | done].
Qed.

Lemma silent_mapM {A B} (f : A -> M B) xs : (forall x, silent (f x)) -> silent (mapM f xs).
Proof using.
  intros Hf. induction xs as [|x xs IH]; simpl; [done|].
  apply silent_bind; [apply Hf | intros y].
  apply silent_bind; [apply IH | done].
Qed.

Lemma silent_as_path cell : silent (as_path cell).
Proof using. by destruct cell as [[|?]|]. Qed.

Lemma silent_parse_subtask_status path small_thresh :
  silent (parse_subtask_status path small_thresh).
Proof using. intros w. by rewrite parse_subtask_status_run. Qed.

Lemma silent_log_paths_with_statuses path exclude_stats :
  silent (log_paths_with_statuses path exclude_stats).
Proof using. intros w. by rewrite log_paths_with_statuses_run. Qed.

Lemma foldM_out_inv {A B} (body : B -> A -> M B) (g : A -> list string) xs acc w r :
  (forall acc x, read_only (body acc x)) ->
  (forall acc x r', res (body acc x w) = Ret r' -> out (body acc x w) = g x) ->
  res (foldM body xs acc w) = Ret r ->
  out (foldM body xs acc w) = concat (map g xs).
Proof using.
  intros Hb Hg. revert acc. induction xs as [|x xs IH]; intros acc H; simpl in *; [done|].
  apply bind_inv in H as (acc' & H0 & H & Hout); [|apply Hb].
  rewrite Hout, (Hg _ _ _ H0), (IH _ H). done.
Qed.

Lemma print_task_row_ret label vals label_width wrap w :
  res (print_task_row label vals label_width wrap w) = Ret tt ->
  (0 <= wrap <= sys_maxsize)%Z.
Proof.
  intros H. destruct (Z.lt_ge_cases wrap 0) as [Hneg|?].
  { by rewrite print_task_row_negative in H. }
  destruct (Z.lt_ge_cases sys_maxsize wrap) as [Hbig|?]; [|lia].
  by rewrite print_task_row_too_large in H.
Qed.

Lemma out_mapM_abs_paths work_path (cells : list (option Cell)) w :
  out (mapM (fun p => bind (as_path p) (fun s => ret (Path_div work_path s))) cells w) = [].
Proof.
  apply silent_mapM. intros p. apply silent_bind; [apply silent_as_path | done].
Qed.

Lemma out_mapM_stats (paths : list string) w :
  out (mapM (fun p => bind (parse_subtask_status p small_thresh_default)
                           (fun s => ret (colored_status_string s))) paths w) = [].
Proof.
  apply silent_mapM. intros p.
  apply silent_bind; [apply silent_parse_subtask_status | done].
Qed.

Lemma out_mapM_records (task_name : string) (cells : list (string * option Cell)) w :
  out (mapM (fun kp : string * option Cell =>
               bind (as_path kp.2) (fun spath =>
                 bind (log_paths_with_statuses spath [OK]) (fun d =>
                   ret (map (fun ps : string * Status => (task_name, kp.1, ps.1, ps.2)) d))))
            cells w) = [].
Proof.
  apply silent_mapM. intros kp. apply silent_bind; [apply silent_as_path | intros spath].
  apply silent_bind; [apply silent_log_paths_with_statuses | done].
Qed.

(** The lines of a row that is rendered without an exception. *)
Lemma main_row_out work_path tasks wrap records i row w r :
  res (main_row work_path tasks (twidth_of tasks) (subtask_keys tasks) wrap records
                (i, row) w) = Ret r ->
  out (main_row work_path tasks (twidth_of tasks) (subtask_keys tasks) wrap records
                (i, row) w)
  = row_lines w work_path tasks wrap (i, row).
Proof.
  set (skeys := subtask_keys tasks). set (twidth := twidth_of tasks).
  unfold main_row. cbn [fst snd]. intros H.
  apply bind_inv in H as (task & Htask & H & Ho1); [|ro]. rewrite Ho1.
  destruct (tasks !! i) as [task'|] eqn:Ei; [|discriminate]. injection Htask as ->.
  apply bind_inv in H as (c & Hc & H & Ho2); [|ro]. rewrite Ho2.
  destruct (dict_get row TableKey_task) as [c'|] eqn:Ec; [|discriminate]. injection Hc as ->.
  apply bind_inv in H as ([] & Hassert & H & Ho3); [|ro]. rewrite Ho3.
  unfold assert in Hassert |- *. case_bool_decide as Hname; [|discriminate].
  apply bind_inv in H as (abs_paths & Habs & H & Ho4); [|ro]. rewrite Ho4.
  apply bind_inv in H as (stats & Hstats & H & Ho5); [|ro]. rewrite Ho5.
  apply bind_inv in H as ([] & Hprint & H & Ho6); [|ro]. rewrite Ho6.
  apply bind_inv in H as (new_records & Hnew & H & Ho7); [|ro]. rewrite Ho7.
  rewrite out_mapM_abs_paths, out_mapM_stats, out_mapM_records.
  cbn [out ret app]. rewrite !app_nil_r.
  pose proof (print_task_row_ret _ _ _ _ _ Hprint) as Hwrap.
  rewrite print_task_row_run by done.
  unfold row_lines. cbn [fst snd]. rewrite Ei. fold skeys twidth.
  apply mapM_inv in Habs; [|intros; ro].
  apply mapM_inv in Hstats; [|intros; ro].
  assert (Heq : stats = map (cell_text w work_path row) skeys).
  { apply list_eq. intros j. rewrite list_lookup_fmap.
    destruct (skeys !! j) as [skey|] eqn:Ej; simpl.
    - assert (Hcell : map (dict_get row) skeys !! j = Some (dict_get row skey))
        by (by rewrite list_lookup_fmap, Ej).
      destruct (Forall2_lookup_l _ _ _ _ _ Habs Hcell) as (p & Hp & Hrun).
      destruct (Forall2_lookup_l _ _ _ _ _ Hstats Hp) as (cs & Hcs & Hs).
      rewrite Hcs. f_equal. unfold cell_text.
      destruct (dict_get row skey) as [[|spath]|]; try discriminate.
      erewrite bind_run in Hrun by apply ret_run. simpl in Hrun. injection Hrun as <-.
      unfold bind in Hs. rewrite parse_subtask_status_run in Hs. cbn [res wld out] in Hs.
      destruct (status_of_log_stats _ _) as [s|e]; [|discriminate].
      simpl in Hs. by injection Hs as <-.
    - apply lookup_ge_None. apply lookup_ge_None in Ej.
      rewrite <- (Forall2_length _ _ _ Hstats), <- (Forall2_length _ _ _ Habs).
      by rewrite length_map. }
  rewrite Heq, length_map. reflexivity.
Qed.

Lemma main_group_out path work_path wrap records group_id w r :
  res (main_group path work_path wrap records group_id w) = Ret r ->
  out (main_group path work_path wrap records group_id w)
  = group_lines w path work_path wrap group_id.
Proof.
  intros H. pose proof H as H0. unfold main_group in H0.
  apply bind_inv in H0 as (df & Hdf & H0 & _); [|ro]. apply read_file_inv in Hdf.
  apply bind_inv in H0 as (tasks & Htasks & H0 & _); [|ro]. apply read_file_inv in Htasks.
  apply bind_inv in H0 as (twidth & Htw & H0 & _); [|unfold task_column_width; ro].
  assert (Hne : tasks <> []) by (intros ->; discriminate).
  rewrite (task_column_width_run _ _ Hne) in Htw. injection Htw as <-.
  apply bind_inv in H0 as ([] & _ & H0 & _); [|ro].
  apply bind_inv in H0 as ([] & Hhead & H0 & _); [|ro].
  apply print_task_row_ret in Hhead.
  apply bind_inv in H0 as (recs & Hrows & _ & _); [|ro].
  rewrite (main_group_run _ _ _ _ _ _ _ _ Hdf Htasks Hne Hhead). cbn [out].
  rewrite Hrows. unfold group_lines. rewrite Hdf, Htasks. do 2 f_equal.
  eapply foldM_out_inv; [| |exact Hrows].
  - intros. apply read_only_main_row.
  - intros acc [i row] r' Hr'. by eapply main_row_out.
Qed.

(** X20: the report of a pass that ends normally: for each group of the
    manifest, in order, the header, then one row per row of the matrix that
    shows under every key of the group the colored status of the subtask
    directory [Path(work_path) / cell], then a blank line; after the groups,
    the listing of the logs that are not OK. *)
Theorem main_report (path : string) (wrap : Z) (w : World) :
  res (main path wrap w) = Ret tt ->
  exists info,
    fs_info w !! Path_div path INFO_FILE = Some info /\
    out (main path wrap w)
    = concat (map (group_lines w path (work_path info) wrap) (group_ids info))
        ++ listing_lines (work_path info) (run_records w path).
Proof.
  intros H. pose proof H as H0. unfold main in H0.
  apply bind_inv in H0 as (ex & Hex & H0 & Ho1); [|ro].
  apply bind_inv in H0 as ([] & Hassert & H0 & Ho2); [|ro].
  apply bind_inv in H0 as (info & Hinfo & H0 & Ho3); [|ro].
  apply bind_inv in H0 as (recs & Hrecs & H0 & Ho4); [|ro].
  pose proof (read_file_inv _ _ _ _ Hinfo) as Hinfo'.
  simpl in Hex. injection Hex as <-.
  unfold assert in Hassert. case_bool_decide as Hpath; [|discriminate].
  exists info. split; [done|].
  assert (Hrun : recs = run_records w path).
  { unfold run_records. rewrite Hinfo'.
    change (recs = [] ++ concat (map (group_records w path) (group_ids info))).
    eapply foldM_inv_acc; [| |exact Hrecs].
    - intros; ro.
    - intros acc g r' Hr'. by apply main_group_inv in Hr' as (_ & _ & _ & _ & _ & _ & ->). }
  unfold main. rewrite Ho1, Ho2, Ho3, Ho4.
  rewrite print_non_okay_log_records_run, Hrun.
  rewrite (read_file_run _ _ _ _ Hinfo').
  trans (out (foldM (main_group path (work_path info) wrap) (group_ids info) [] w)
           ++ listing_lines (work_path info) (run_records w path)); [reflexivity|].
  f_equal. eapply foldM_out_inv; [| |exact Hrecs].
  - intros. apply read_only_main_group.
  - intros acc g r' Hr'. by eapply main_group_out.
Qed.

(** X21: the two listings of a directory decide whether its subtask is OK:
    [parse_subtask_status] returns OK exactly when [log_paths_with_statuses]
    finds logs there and finds none once the OK logs are excluded. *)
Theorem parse_subtask_status_OK_no_listing (path : string) (small_thresh : Q) (w : World) :
  parse_subtask_status path small_thresh w = mkOutcome (Ret OK) w []
  <-> res (log_paths_with_statuses path [] w) <> Ret [] /\
      res (log_paths_with_statuses path [OK] w) = Ret [].
Proof using.
  rewrite parse_subtask_status_run, outcome_res_eq, !log_paths_with_statuses_run.
  cbn [res]. rewrite filter_nothing_excluded.
  set (d := log_dct_at w path).
  assert (Hstats : log_stats_at w path = map snd d) by reflexivity.
  match goal with |- context [filter ?P d] => set (not_ok := filter P d) end.
  assert (Hfilter : not_ok = [] <-> forall s, s ∈ map snd d -> s = OK).
  { split.
    - intros Hf s (kv & -> & Hkv)%list_elem_of_fmap.
      destruct (decide (kv.2 = OK)) as [|Hne]; [done|]. exfalso.
      assert (Hin : kv ∈ not_ok).
      { apply list_elem_of_filter. split; [|done].
        intros [?|?%not_elem_of_nil]%elem_of_cons; done. }
      rewrite Hf in Hin. by apply not_elem_of_nil in Hin.
    - intros Hall. destruct not_ok as [|kv l] eqn:E; [done|]. exfalso.
      assert (Hin : kv ∈ not_ok) by (rewrite E; left).
      apply list_elem_of_filter in Hin as [Hn Hkv]. apply Hn.
      rewrite (Hall kv.2) by (by apply (list_elem_of_fmap_2 snd)). left. }
  pose proof (status_of_log_stats_cases (log_stats_at w path) small_thresh) as Hc.
  simpl in Hc. rewrite Hstats in Hc |- *.
  assert (Hd : d = [] <-> map snd d = []) by (by destruct d).
  destruct Hc as [[He Hr]|[(X & Hne & HX & Hr)|Hc]].
  - rewrite Hr. split; [done|]. intros [Hn _]. exfalso. apply Hn. f_equal. by apply Hd.
  - rewrite Hr. split.
    + intros [= ->]. split; [|f_equal; by apply (proj2 Hfilter)].
      intros [= Hd']. apply Hne. by apply Hd.
    + intros [_ [= Hf]]. f_equal. pose proof (proj1 Hfilter Hf) as Hall.
      destruct (map snd d) as [|a l]; [done|].
      rewrite <- (HX a) by left. apply Hall. left.
  - assert (Hmix : mixed (map snd d)) by (destruct Hc as [H|[H|[H|[H|[H|H]]]]]; apply H).
    assert (Hr : status_of_log_stats (map snd d) small_thresh <> Ret OK).
    { destruct Hc as [H|[H|[H|[H|[H|H]]]]]; last_conj H; rewrite H; done. }
    split; [done|]. intros [_ [= Hf]].
    by destruct (mixed_not_common _ _ Hmix (proj1 Hfilter Hf)).
Qed.

(** X22: a pass that ends normally has found, in every group, a task of the
    catalog for every row of the matrix, with the row's name: the matrix has
    no more rows than the catalog has tasks, and row [i] carries the name of
    task [i]. *)
Theorem main_normal_end_integrity (path : string) (wrap : Z) (w : World) :
  res (main path wrap w) = Ret tt ->
  exists info,
    fs_info w !! Path_div path INFO_FILE = Some info /\
    forall group_id df tasks,
      group_id ∈ group_ids info ->
      fs_csv w !! Path_div path (group_id +:+ ".csv") = Some df ->
      fs_tasks w !! Path_div path (group_id +:+ ".yaml") = Some tasks ->
      length df <= length tasks /\
      forall i row, df !! i = Some row ->
        exists task, tasks !! i = Some task /\
                     dict_get row TableKey_task = Some (Str (Task.name task)).
Proof.
  intros H. apply main_inv in H as (info & _ & _ & Hinfo & Hcells & _).
  exists info. split; [done|].
  intros group_id df tasks Hg Hdf Htasks.
  destruct (Hcells group_id Hg) as (df' & tasks' & Hdf' & Htasks' & Hrows).
  rewrite Hdf in Hdf'. rewrite Htasks in Htasks'.
  injection Hdf' as <-. injection Htasks' as <-.
  assert (Hrow : forall i row, df !! i = Some row ->
            exists task, tasks !! i = Some task /\
                         dict_get row TableKey_task = Some (Str (Task.name task))).
  { intros i row Hi. destruct (Hrows i row Hi) as (task & ? & ? & _). by exists task. }
  split; [|exact Hrow].
  destruct (decide (length df <= length tasks)) as [|Hgt]; [done|]. exfalso.
  destruct (lookup_lt_is_Some_2 df (length tasks)) as [row Hi]; [lia|].
  destruct (Hrow _ _ Hi) as (task & Htask & _).
  apply lookup_lt_Some in Htask. lia.
Qed.

End StatusPass.

(** * The examples, run *)

Ltac by_computation := apply (bool_decide_unpack _); vm_compute; exact I.

(** The specification's example: six logs with one ERROR are OK_1E, eleven
    logs with two ERRORs are OK_2E, five logs with one ERROR are ERROR. *)
Lemma parse_subtask_status_errors_witness :
  let w6 := logs_world "d" [OK; ERROR; OK; OK; OK; OK] in
  let w11 := logs_world "d" [OK; ERROR; OK; OK; OK; OK; ERROR; OK; OK; OK; OK] in
  let w5 := logs_world "d" [OK; ERROR; OK; OK; OK] in
  parse_subtask_status "d" small_thresh_default w6 = mkOutcome (Ret OK_1E) w6 [] /\
  parse_subtask_status "d" small_thresh_default w11 = mkOutcome (Ret OK_2E) w11 [] /\
  parse_subtask_status "d" small_thresh_default w5 = mkOutcome (Ret ERROR) w5 [].
Proof.
  intros w6 w11 w5.
  assert (Hmix : forall w, OK ∈ log_stats_at w "d" -> ERROR ∈ log_stats_at w "d" ->
                           mixed (log_stats_at w "d")).
  { intros w H1 H2. exists OK, ERROR. repeat split; [exact H1 | exact H2 | discriminate]. }
  split; [|split].
  - refine (proj1 (parse_subtask_status_errors w6 "d" _ _) _ _).
    + apply Hmix; by_computation.
    + by_computation.
    + vm_compute; reflexivity.
    + vm_compute; reflexivity.
  - refine (proj1 (proj2 (parse_subtask_status_errors w11 "d" _ _)) _ _).
    + apply Hmix; by_computation.
    + by_computation.
    + vm_compute; reflexivity.
    + vm_compute; reflexivity.
  - refine (proj2 (proj2 (proj2 (parse_subtask_status_errors w5 "d" _ _))) _ _).
    + apply Hmix; by_computation.
    + by_computation.
    + vm_compute; reflexivity.
    + vm_compute; reflexivity.
Defined.

(** OK and TBD together are not covered by the rule table: the assertion
    fails and the pass over [unmodeled_world] ends with an exception; OK and
    WARNING together are WARNING. *)
Lemma parse_subtask_status_warning_or_failure_witness :
  let w := unmodeled_world in
  let ww := logs_world "d" [OK; WARNING; OK] in
  parse_subtask_status "/work/g/A/p1" small_thresh_default w
    = mkOutcome (Raise (AssertionError OkWarningOnly)) w [] /\
  (exists e, res (main 7 demo_status_string "info.yaml" "task" demo_Path_div
                       "subtasks" 18 w) = Raise e) /\
  parse_subtask_status "d" small_thresh_default ww = mkOutcome (Ret WARNING) ww [].
Proof.
  intros w ww.
  destruct (parse_subtask_status_warning_or_failure 7 demo_status_string "info.yaml"
              "task" demo_Path_div w "/work/g/A/p1") as (_ & Hfail & Habort).
  { exists OK, TBD. repeat split; [by_computation | by_computation | discriminate]. }
  { by_computation. }
  { by_computation. }
  assert (Hset : (list_to_set (log_stats_at w "/work/g/A/p1") : gset Status)
                 <> {[OK; WARNING]}) by by_computation.
  split; [exact (Hfail Hset)|]. split.
  - apply (Habort Hset "subtasks" 18%Z (mkInfo ["g"] "/work") "g"
             [[("task", Str "A"); ("p1", Str "g/A/p1")]]
             [Task.mk "A" ["p1"]] 0 [("task", Str "A"); ("p1", Str "g/A/p1")]
             "p1" "g/A/p1");
      first [ vm_compute; reflexivity | by_computation ].
  - destruct (parse_subtask_status_warning_or_failure 7 demo_status_string "info.yaml"
                "task" demo_Path_div ww "d") as (Hiff & _).
    { exists OK, WARNING. repeat split; [by_computation | by_computation | discriminate]. }
    { by_computation. }
    { by_computation. }
    apply Hiff. by_computation.
Defined.

(** The specification's examples: OK, OK, RUNNING is RUNNING; five ERROR
    logs are ERROR. *)
Lemma parse_subtask_status_common_then_running_witness :
  let wr := logs_world "d" [OK; OK; RUNNING] in
  let we := logs_world "d" [ERROR; ERROR; ERROR; ERROR; ERROR] in
  parse_subtask_status "d" small_thresh_default wr = mkOutcome (Ret RUNNING) wr [] /\
  parse_subtask_status "d" small_thresh_default we = mkOutcome (Ret ERROR) we [].
Proof.
  intros wr we. split.
  - refine (proj2 (parse_subtask_status_common_then_running wr "d" _ _) _ _).
    + vm_compute. discriminate.
    + intros [X HX].
      assert (H1 : OK = X) by (apply HX; by_computation).
      assert (H2 : RUNNING = X) by (apply HX; by_computation).
      rewrite <- H1 in H2. discriminate H2.
    + by_computation.
  - refine (proj1 (parse_subtask_status_common_then_running we "d" _ _) _ _).
    + vm_compute. discriminate.
    + apply Forall_forall. by_computation.
Defined.

(** One ERROR with five TBD logs is OK_1E; two ERRORs among TBD and WARNING
    logs, eleven in all, are OK_2E: no OK log is needed. *)
Lemma parse_subtask_status_tolerates_any_rest_witness :
  let w6 := logs_world "d" [TBD; TBD; ERROR; TBD; TBD; TBD] in
  let w11 := logs_world "d" [TBD; WARNING; ERROR; TBD; WARNING; WARNING; TBD; ERROR;
                             TBD; TBD; WARNING] in
  parse_subtask_status "d" small_thresh_default w6 = mkOutcome (Ret OK_1E) w6 [] /\
  parse_subtask_status "d" small_thresh_default w11 = mkOutcome (Ret OK_2E) w11 [].
Proof.
  intros w6 w11. split.
  - refine (proj1 (parse_subtask_status_tolerates_any_rest w6 "d" _) _ _).
    + by_computation.
    + vm_compute; reflexivity.
    + vm_compute; lia.
  - refine (proj2 (parse_subtask_status_tolerates_any_rest w11 "d" _) _ _).
    + by_computation.
    + vm_compute; reflexivity.
    + vm_compute; lia.
Defined.

(** Seven keys with a wrap width of three: three chunks, a guide line of
    [1 + 8 * 3] characters. *)
Lemma print_task_row_wrapped_witness :
  print_task_row 7 "A" ["OK"; "OK"; "TBD"; "OK"; "ERROR"; "OK"; "OK_1E"] 1 3 demo_world
  = mkOutcome (Ret tt) demo_world
      [ "A  OK      OK      TBD  ";
        "   OK     ERROR    OK   ";
        "  OK_1E ";
        "-------------------------" ].
Proof.
  destruct (print_task_row_wrapped 7 demo_status_string "task" demo_Path_div
              "A" ["OK"; "OK"; "TBD"; "OK"; "ERROR"; "OK"; "OK_1E"] 1 3 demo_world)
    as (Hrun & _); [by_computation|].
  rewrite Hrun. vm_compute. reflexivity.
Defined.

Lemma app_suffix_drop {A} (l tables s : list A) :
  l = tables ++ s -> drop (length l - length s) l = s.
Proof.
  intros ->. rewrite length_app.
  replace (length tables + length s - length s) with (length tables) by lia.
  by rewrite drop_app_length.
Qed.

(** Seen from the work path, the pass over [demo_world] ends normally and
    lists the one log that is not OK. *)
Lemma main_lists_non_ok_logs_witness :
  let result := main 7 demo_status_string "info.yaml" "task" demo_Path_div
                     "subtasks" 18 demo_world in
  res result = Ret tt /\
  exists tables,
    out result
    = tables ++ ["Non-OK log files in /work:"; "B p1 g/B/p1/outxx.log ERROR"; ""].
Proof.
  intros result.
  assert (H : res result = Ret tt) by (vm_compute; reflexivity).
  split; [exact H|].
  destruct (main_lists_non_ok_logs 7 demo_status_string "info.yaml" "task" demo_Path_div
              "subtasks" 18 demo_world H) as (info & tables & Hinfo & Hout & _).
  exists tables. fold result in Hout. rewrite Hout.
  assert (Hi : info = mkInfo ["g"] "/work").
  { vm_compute in Hinfo. injection Hinfo as <-. reflexivity. }
  rewrite Hi. f_equal.
Defined.

(** Seen from the work path, on [demo_world], the log of the listing is
    [g/B/p1/outxx.log], the entry found under the cell's path as the matrix
    has it, and not the absolute path [/work/g/B/p1/outxx.log]. *)
Lemma listing_paths_are_not_absolute :
  out (main 7 demo_status_string "info.yaml" "task" demo_Path_div "subtasks" 18 demo_world)
  = [ "task  p1      p2   "; "A  OK      OK   "; "B OK_1E    TBD  "; "";
      "Non-OK log files in /work:"; "B p1 g/B/p1/outxx.log ERROR"; "" ] /\
  ~ listing_as_specified 7 demo_status_string "info.yaml" "task" demo_Path_div
      demo_world "subtasks" 18.
Proof.
  split; [vm_compute; reflexivity|].
  intros (info & tables & Hinfo & Hout).
  vm_compute in Hinfo. injection Hinfo as <-.
  apply app_suffix_drop in Hout. vm_compute in Hout. discriminate Hout.
Qed.

(** C5: the code at the failing input [elsewhere_world], a pass that is
    not run from the work path.  The third log of [/work/g/B/p1] is ERROR,
    and the table, which scans [Path(work_path) / cell], shows the subtask
    as OK_1E; the listing scans the cell [g/B/p1] as it is written, finds
    no log there and prints nothing but the closing blank line.  The log
    that is not OK is not listed: the report is not the one the
    specification describes, whose listing has the record of
    [/work/g/B/p1/outxx.log]. *)
Theorem main_listing_misses_work_path_logs :
  let w := elsewhere_world in
  let run := main 7 demo_status_string "info.yaml" "task" demo_Path_div
                  "subtasks" 18 w in
  fs_logs w !! "/work/g/B/p1" = Some (log_names "/work/g/B/p1" 6) /\
  fs_status w "/work/g/B/p1/outxx.log" = ERROR /\
  parse_subtask_status "/work/g/B/p1" small_thresh_default w
  = mkOutcome (Ret OK_1E) w [] /\
  log_paths_with_statuses "g/B/p1" [OK] w = mkOutcome (Ret []) w [] /\
  run = mkOutcome (Ret tt) w
          [ "task  p1      p2   "; "A  OK      OK   "; "B OK_1E    TBD  "; ""; "" ] /\
  spec_run_records "info.yaml" demo_Path_div w "subtasks"
  = [("B", "p1", "/work/g/B/p1/outxx.log", ERROR)] /\
  ~ listing_as_specified 7 demo_status_string "info.yaml" "task" demo_Path_div
      w "subtasks" 18.
Proof.
  intros w run.
  split; [vm_compute; reflexivity|].
  split; [vm_compute; reflexivity|].
  split; [vm_compute; reflexivity|].
  split; [vm_compute; reflexivity|].
  split; [vm_compute; reflexivity|].
  split; [vm_compute; reflexivity|].
  intros (info & tables & Hinfo & Hout).
  vm_compute in Hinfo. injection Hinfo as <-.
  apply app_suffix_drop in Hout. vm_compute in Hout. discriminate Hout.
Qed.

(** The second row of [drifted_world] is the row of task X where the
    catalog has task B: the assertion fails at that row, after the header
    and the row of task A have been printed. *)
Lemma integrity_check_in_render_loop_witness :
  let result := main_group 7 demo_status_string "task" demo_Path_div
                           "subtasks" "/work" 18 [] "g" drifted_world in
  res result
    = Raise (AssertionError
               (RowMatchesTask [("task", Str "X"); ("p1", Str "g/B/p1"); ("p2", Str "g/B/p2")]
                               "B")) /\
  out result = ["task  p1      p2   "; "A  OK      OK   "].
Proof.
  intros result.
  destruct (integrity_check_in_render_loop 7 demo_status_string "info.yaml" "task"
              demo_Path_div "subtasks" "/work" 18 [] "g" drifted_world demo_tasks
              [[("task", Str "A"); ("p1", Str "g/A/p1"); ("p2", Str "g/A/p2")]]
              [("task", Str "X"); ("p1", Str "g/B/p1"); ("p2", Str "g/B/p2")]
              [] (Task.mk "B" ["p1"; "p2"]) (Str "X") [])
    as [Hrun _].
  - vm_compute; reflexivity.
  - vm_compute; reflexivity.
  - by_computation.
  - vm_compute; reflexivity.
  - vm_compute; reflexivity.
  - vm_compute; reflexivity.
  - discriminate.
  - unfold result. rewrite Hrun. split; vm_compute; reflexivity.
Defined.

(** C7, as stated, fails on [drifted_world]: the header and the row of task
    A are rendered before the mismatch of the second row is found. *)
Lemma integrity_check_is_not_eager :
  ~ integrity_checked_before_rendering 7 demo_status_string "task" demo_Path_div
      drifted_world "subtasks" "/work" 18 "g".
Proof.
  intros H.
  specialize (H [ [("task", Str "A"); ("p1", Str "g/A/p1"); ("p2", Str "g/A/p2")];
                  [("task", Str "X"); ("p1", Str "g/B/p1"); ("p2", Str "g/B/p2")] ]
                demo_tasks 1
                [("task", Str "X"); ("p1", Str "g/B/p1"); ("p2", Str "g/B/p2")]
                (Task.mk "B" ["p1"; "p2"]) (Str "X")).
  assert (Hout : out (main_group 7 demo_status_string "task" demo_Path_div
                        "subtasks" "/work" 18 [] "g" drifted_world) = []).
  { apply H; first [ vm_compute; reflexivity | discriminate ]. }
  vm_compute in Hout. discriminate Hout.
Qed.

(** C4, as stated, fails on [blank_cell_world]: the second cell of task B is
    blank, and the pass does not show TBD for it: it ends with a [TypeError]
    when it reaches the row, after the header and the row of task A. *)
Lemma blank_cell_is_not_TBD :
  (let result := main 7 demo_status_string "info.yaml" "task" demo_Path_div
                      "subtasks" 18 blank_cell_world in
   res result = Raise TypeError /\
   out result = ["task  p1      p2   "; "A  OK      OK   "]) /\
  ~ cells_render_as_TBD 7 demo_status_string "task" demo_Path_div
      blank_cell_world "/work" [Task.mk "A" ["p1"; "p2"]; Task.mk "B" ["p1"]]
      1 ["p1"; "p2"] 18 1 [("task", Str "B"); ("p1", Str "g/B/p1"); ("p2", NaN)].
Proof.
  split; [split; vm_compute; reflexivity|].
  intros H. destruct (H (Task.mk "B" ["p1"])) as [records Hrun].
  - reflexivity.
  - reflexivity.
  - intros skey [->|[->|Hin%not_elem_of_nil]%elem_of_cons]%elem_of_cons; [| |done].
    + right. exists "g/B/p1". split; [reflexivity|]. left. vm_compute. reflexivity.
    + left. reflexivity.
  - vm_compute in Hrun. discriminate Hrun.
Qed.

(** In [fresh_world] nothing has run: both cells of task A are TBD. *)
Lemma logless_cells_are_TBD_witness :
  main_row 7 demo_status_string "task" demo_Path_div "/work" [Task.mk "A" ["p1"; "p2"]]
           1 ["p1"; "p2"] 18 []
           (0, [("task", Str "A"); ("p1", Str "g/A/p1"); ("p2", Str "g/A/p2")]) fresh_world
  = mkOutcome (Ret []) fresh_world ["A  TBD     TBD  "].
Proof.
  destruct (logless_cells_are_TBD 7 demo_status_string "task" demo_Path_div
              "/work" [Task.mk "A" ["p1"; "p2"]] 1 ["p1"; "p2"] 18 []
              0 [("task", Str "A"); ("p1", Str "g/A/p1"); ("p2", Str "g/A/p2")]
              (Task.mk "A" ["p1"; "p2"]) fresh_world) as [_ Hrun].
  - reflexivity.
  - reflexivity.
  - by_computation.
  - intros skey [->|[->|Hin%not_elem_of_nil]%elem_of_cons]%elem_of_cons; [| |done].
    + exists "g/A/p1". split; [reflexivity|]. right. vm_compute. reflexivity.
    + exists "g/A/p2". split; [reflexivity|]. left. vm_compute. reflexivity.
  - etrans; [exact Hrun|]. vm_compute. reflexivity.
Defined.

Lemma main_idempotent_witness :
  let first := main 7 demo_status_string "info.yaml" "task" demo_Path_div
                    "subtasks" 18 demo_world in
  let second := main 7 demo_status_string "info.yaml" "task" demo_Path_div
                     "subtasks" 18 (wld first) in
  out second = out first /\ res second = res first.
Proof.
  exact (proj1 (main_idempotent 7 demo_status_string "info.yaml" "task" demo_Path_div
                  "subtasks" 18 demo_world)).
Defined.

Lemma main_read_only_witness :
  wld (main 7 demo_status_string "info.yaml" "task" demo_Path_div
            "subtasks" 18 blank_cell_world) = blank_cell_world.
Proof.
  exact (proj1 (main_read_only 7 demo_status_string "info.yaml" "task" demo_Path_div
                  "subtasks" 18 blank_cell_world)).
Defined.


(** ** Examples for the further properties *)

(** One ERROR beside a RUNNING log is RUNNING; one ERROR among three
    finished logs is ERROR. *)
Lemma parse_subtask_status_shows_errors_witness :
  let wr := logs_world "d" [OK; ERROR; RUNNING] in
  let we := logs_world "d" [OK; ERROR; OK] in
  res (parse_subtask_status "d" small_thresh_default wr) = Ret RUNNING /\
  res (parse_subtask_status "d" small_thresh_default we) = Ret ERROR.
Proof.
  intros wr we. split.
  - apply (parse_subtask_status_shows_errors wr "d" small_thresh_default);
      by_computation.
  - destruct (parse_subtask_status_shows_errors we "d" small_thresh_default)
      as [_ H]; [by_computation|].
    vm_compute; reflexivity.
Defined.

(** Six logs with one ERROR are OK_1E in whichever order they are found. *)
Lemma parse_subtask_status_scan_order_witness :
  let stats := [OK; ERROR; OK; OK; OK; OK] in
  res (parse_subtask_status "d" small_thresh_default (logs_world "d" stats)) =
  res (parse_subtask_status "d" small_thresh_default (reversed_logs_world "d" stats)).
Proof.
  intros stats.
  apply (parse_subtask_status_scan_order
           (logs_world "d" stats) (reversed_logs_world "d" stats) "d"
           small_thresh_default
           (log_names "d" 6) (reverse (log_names "d" 6))).
  - vm_compute; reflexivity.
  - vm_compute; reflexivity.
  - symmetry. apply reverse_Permutation.
  - intros log_path _. reflexivity.
Defined.

(** Five logs with one ERROR: the error fraction 1/5 is tolerated from a
    threshold of 1/4 on, and stays tolerated at 1/2. *)
Lemma parse_subtask_status_tolerance_monotone_witness :
  let w := logs_world "d" [OK; ERROR; OK; OK; OK] in
  res (parse_subtask_status "d" (1 # 4) w) = Ret OK_1E /\
  res (parse_subtask_status "d" (1 # 2) w) = Ret OK_1E.
Proof.
  intros w.
  assert (H : res (parse_subtask_status "d" (1 # 4) w) = Ret OK_1E)
    by (vm_compute; reflexivity).
  split; [exact H|].
  apply (proj1 (parse_subtask_status_tolerance_monotone w "d" (1 # 4) (1 # 2)
                  ltac:(discriminate)) H).
Defined.

(** With a threshold of zero, one ERROR among six logs is ERROR. *)
Lemma parse_subtask_status_no_tolerance_witness :
  let w := logs_world "d" [OK; ERROR; OK; OK; OK; OK] in
  parse_subtask_status "d" 0 w = mkOutcome (Ret ERROR) w [].
Proof.
  intros w. apply parse_subtask_status_no_tolerance.
  - discriminate.
  - by_computation.
  - by_computation.
Defined.

(** A second task that brings one new key: the keys of the first task come
    first, the new key after them. *)
Lemma subtask_keys_first_seen_witness :
  subtask_keys [Task.mk "A" ["p1"; "p2"]; Task.mk "B" ["p2"; "p3"; "p1"]]
  = ["p1"; "p2"; "p3"].
Proof.
  etrans.
  - apply (proj1 (subtask_keys_first_seen (Task.mk "A" ["p1"; "p2"])
                    [Task.mk "B" ["p2"; "p3"; "p1"]] ltac:(by_computation))).
  - vm_compute; reflexivity.
Defined.

(** Two cells within a wrap of 18: one line. *)
Lemma print_task_row_fits_witness :
  let w := logs_world "d" [] in
  print_task_row 7 "A" ["OK"; "TBD"] 3 18 w
  = mkOutcome (Ret tt) w ["  A  OK      TBD  "].
Proof.
  intros w.
  etrans.
  - apply (print_task_row_fits 7 "A" ["OK"; "TBD"] 3 18 w); [discriminate | by_computation].
  - vm_compute; reflexivity.
Defined.

(** Seven cells wrapped after three: the third line holds one cell and is
    1 + 1 * 8 - 1 characters long; the guide is 1 + 3 * 8 characters long. *)
Lemma print_task_row_line_widths_witness :
  let w := logs_world "d" [] in
  let printed := out (print_task_row 7 "A" ["OK"; "OK"; "OK"; "OK"; "OK"; "OK"; "OK"]
                        1 3 w) in
  (exists line, printed !! 2 = Some line /\ String.length line = 8) /\
  (exists guide, printed !! 3 = Some guide /\ String.length guide = 25).
Proof.
  intros w printed.
  destruct (print_task_row_line_widths 7 "A" ["OK"; "OK"; "OK"; "OK"; "OK"; "OK"; "OK"]
              1 3 w) as [Hline Hguide].
  - by_computation.
  - by_computation.
  - intros v Hv. revert v Hv. apply Forall_forall. by_computation.
  - split.
    + apply (Hline 2 ["OK"]). vm_compute; reflexivity.
    + apply Hguide. by_computation.
Defined.


(** A group without matrix, and a group whose catalog is empty. *)
Lemma main_group_load_errors_witness :
  let w0 := empty_setup_world in
  let w2 := run_world [] [] [] in
  let run := main_group 7 demo_status_string "task" demo_Path_div "subtasks" "/work"
               18 [] "g" in
  run w0 = mkOutcome (Raise (FileNotFoundError "subtasks/g.csv")) w0 [] /\
  run w2 = mkOutcome (Raise ValueError) w2 [].
Proof.
  intros w0 w2 run. split.
  - apply (proj1 (main_group_load_errors 7 demo_status_string "task" demo_Path_div
                    "subtasks" "/work" 18 [] "g" w0)).
    vm_compute; reflexivity.
  - apply (proj2 (main_group_load_errors 7 demo_status_string "task"
                    demo_Path_div "subtasks" "/work" 18 [] "g" w2) []).
    + vm_compute; reflexivity.
    + vm_compute; reflexivity.
Defined.

(** A third row where the catalog has two tasks, a row without task
    column, and the blank second cell of task B in [blank_cell_world]. *)
Lemma main_row_checks_witness :
  let w := blank_cell_world in
  let tasks := [Task.mk "A" ["p1"; "p2"]; Task.mk "B" ["p1"]] in
  let run := main_row 7 demo_status_string "task" demo_Path_div "/work" tasks 1
               ["p1"; "p2"] 18 [] in
  run (2, [("task", Str "C")]) w = mkOutcome (Raise IndexError) w [] /\
  run (0, [("p1", Str "g/A/p1")]) w = mkOutcome (Raise (KeyError "task")) w [] /\
  run (1, [("task", Str "B"); ("p1", Str "g/B/p1"); ("p2", NaN)]) w
  = mkOutcome (Raise TypeError) w [].
Proof.
  intros w tasks run. split; [|split].
  - apply (proj1 (main_row_checks 7 demo_status_string "task" demo_Path_div "/work"
                    tasks 1 ["p1"; "p2"] 18 [] 2 [("task", Str "C")] w)).
    by_computation.
  - apply (proj1 (proj2 (main_row_checks 7 demo_status_string "task" demo_Path_div
                           "/work" tasks 1 ["p1"; "p2"] 18 [] 0
                           [("p1", Str "g/A/p1")] w)) (Task.mk "A" ["p1"; "p2"])).
    + reflexivity.
    + reflexivity.
  - apply (proj2 (proj2 (main_row_checks 7 demo_status_string "task" demo_Path_div
                           "/work" tasks 1 ["p1"; "p2"] 18 [] 1
                           [("task", Str "B"); ("p1", Str "g/B/p1"); ("p2", NaN)] w))
             (Task.mk "B" ["p1"]) "p2").
    + reflexivity.
    + reflexivity.
    + by_computation.
    + left. reflexivity.
Defined.

(** The second group of [two_group_world] has no matrix: the table of the
    first group is printed, then the pass ends with the exception, and the
    ERROR log of the first group is not listed. *)
Lemma main_stops_at_exception_witness :
  let w := two_group_world in
  let run := main 7 demo_status_string "info.yaml" "task" demo_Path_div
               "subtasks" 18 w in
  res run = Raise (FileNotFoundError "subtasks/h.csv") /\
  out run = ["task  p1      p2   ";
             "A  OK      OK   ";
             "B OK_1E    TBD  ";
             ""].
Proof.
  intros w run.
  assert (H : run = mkOutcome (Raise (FileNotFoundError "subtasks/h.csv")) w
                      (out (foldM (main_group 7 demo_status_string "task" demo_Path_div
                                     "subtasks" "/work" 18) ["g"] [] w)
                       ++ out (main_group 7 demo_status_string "task" demo_Path_div
                                 "subtasks" "/work" 18
                                 [("B", "p1", "g/B/p1/outxx.log", ERROR)] "h" w))).
  { apply (main_stops_at_exception 7 demo_status_string "info.yaml" "task"
             demo_Path_div "subtasks" 18 w (mkInfo ["g"; "h"] "/work")
             ["g"] "h" [] [("B", "p1", "g/B/p1/outxx.log", ERROR)]
             (FileNotFoundError "subtasks/h.csv")).
    - by_computation.
    - vm_compute; reflexivity.
    - reflexivity.
    - vm_compute; reflexivity.
    - vm_compute; reflexivity. }
  split.
  - etrans; [exact (f_equal res H)|]. reflexivity.
  - etrans; [exact (f_equal out H)|]. vm_compute; reflexivity.
Defined.

(** The pass over [demo_world]: the table of group [g], then the listing
    with the one ERROR log. *)
Lemma main_report_witness :
  let w := demo_world in
  out (main 7 demo_status_string "info.yaml" "task" demo_Path_div "subtasks" 18 w)
  = ["task  p1      p2   ";
     "A  OK      OK   ";
     "B OK_1E    TBD  ";
     "";
     "Non-OK log files in /work:";
     "B p1 g/B/p1/outxx.log ERROR";
     ""].
Proof.
  intros w.
  destruct (main_report 7 demo_status_string "info.yaml" "task" demo_Path_div
              "subtasks" 18 w) as (info & Hinfo & Hout).
  - vm_compute; reflexivity.
  - etrans; [exact Hout|].
    assert (info = mkInfo ["g"] "/work") as -> by (vm_compute in Hinfo; congruence).
    vm_compute; reflexivity.
Defined.

(** The pass over [demo_world] ends normally: the second row of the matrix
    of group [g] is the row of the second task of its catalog. *)
Lemma main_normal_end_integrity_witness :
  let row := [("task", Str "B"); ("p1", Str "g/B/p1"); ("p2", Str "g/B/p2")] in
  exists task, demo_tasks !! 1 = Some task /\
               dict_get row "task" = Some (Str (Task.name task)).
Proof.
  intros row.
  destruct (main_normal_end_integrity 7 demo_status_string "info.yaml" "task"
              demo_Path_div "subtasks" 18 demo_world) as (info & Hinfo & Hall).
  - vm_compute; reflexivity.
  - assert (info = mkInfo ["g"] "/work") as -> by (vm_compute in Hinfo; congruence).
    apply (proj2 (Hall "g"
                    [ [("task", Str "A"); ("p1", Str "g/A/p1"); ("p2", Str "g/A/p2")];
                      row ]
                    demo_tasks ltac:(by_computation)
                    ltac:(vm_compute; reflexivity) ltac:(vm_compute; reflexivity))
                 1 row).
    reflexivity.
Defined.

